(** * Min-max heap (Codechef/MinMaxHeap.py): model and verification

    The Python class [MinMaxHeap] keeps a list [heap] whose slot 0 is an
    unused sentinel and an integer [size].  Its methods mutate the object
    in place and signal errors by raising [IndexError]; a raise leaves
    every mutation made before it in place.  The model threads the object
    explicitly through a state-and-exception monad. *)

From Stdlib Require Import ZArith Arith Lia String.
From stdpp Require Import base list.
From Equations Require Import Equations.

Open Scope string_scope.
Open Scope nat_scope.

(** ** The object and the exceptions *)

(** [self.heap] holds Python integers (unbounded, hence [Z]); [self.size]
    starts at 0 and is only ever decremented behind the guard
    [self.size < 1], so it is a natural number. *)
Record MinMaxHeap : Type := mkHeap { heap : list Z; size : nat }.

Inductive exn : Type :=
| IndexError (msg : string)
| AttributeError (msg : string).

Definition M (A : Type) : Type := MinMaxHeap -> (exn + A) * MinMaxHeap.

Definition ret {A} (a : A) : M A := fun s => (inr a, s).

Definition raise {A} (e : exn) : M A := fun s => (inl e, s).

Definition bind {A B} (m : M A) (k : A -> M B) : M B :=
  fun s => match m s with
           | (inl e, s') => (inl e, s')
           | (inr a, s') => k a s'
           end.

Declare Scope heap_scope.
Delimit Scope heap_scope with heap.
Notation "x <- m ;; k" := (bind m (fun x => k))
  (at level 100, m at next level, k at level 200, right associativity) : heap_scope.
Notation "m ;; k" := (bind m (fun _ => k))
  (at level 100, k at level 200, right associativity) : heap_scope.
Open Scope heap_scope.

(** [self.heap[i]] as an expression. *)
Definition getitem (i : nat) : M Z :=
  fun s => match heap s !! i with
           | Some v => (inr v, s)
           | None => (inl (IndexError "list index out of range"), s)
           end.

(** [self.heap[i] = v]: Python refuses to assign past the end. *)
Definition setitem (i : nat) (v : Z) : M unit :=
  fun s => if decide (i < length (heap s))
           then (inr tt, mkHeap (<[i:=v]> (heap s)) (size s))
           else (inl (IndexError "list assignment index out of range"), s).

(** [self.heap.append(v)]. *)
Definition append (v : Z) : M unit :=
  fun s => (inr tt, mkHeap (heap s ++ [v]) (size s)).

(** [self.heap.pop()]. *)
Definition pop : M Z :=
  fun s => match last (heap s) with
           | Some v => (inr v, mkHeap (take (length (heap s) - 1) (heap s)) (size s))
           | None => (inl (IndexError "pop from empty list"), s)
           end.

(** [self.size] read and written. *)
Definition get_size : M nat := fun s => (inr (size s), s).

Definition set_size (n : nat) : M unit := fun s => (inr tt, mkHeap (heap s) n).

(** [self.heap[i], self.heap[j] = self.heap[j], self.heap[i]]: the right
    hand side is read left to right, then the targets are assigned left
    to right. *)
Definition swap (i j : nat) : M unit :=
  a <- getitem j ;;
  b <- getitem i ;;
  setitem i a ;;
  setitem j b.

(** ** Index arithmetic *)

(** [math.floor(math.log2(i))] is taken as the exact integer logarithm;
    the floating point value agrees with it for every index a list can
    have in practice (below 2^47). *)
Definition _is_min_level (i : nat) : bool :=
  if i =? 0 then false else Nat.even (Nat.log2 i).

Definition _parent (i : nat) : nat := i / 2.

Definition _left_child (i : nat) : nat := 2 * i.

Definition _right_child (i : nat) : nat := 2 * i + 1.

(** ** Construction *)

Definition init : MinMaxHeap := mkHeap [0%Z] 0.

(** ** Insertion *)

Equations _bubble_up_min (i : nat) : M unit by wf i lt :=
  _bubble_up_min i with le_dec 1 (_parent (_parent i)) => {
    | left Hg =>
        a <- getitem i ;;
        b <- getitem (_parent (_parent i)) ;;
        if (a <? b)%Z
        then swap i (_parent (_parent i)) ;; _bubble_up_min (_parent (_parent i))
        else ret tt;
    | right _ => ret tt }.
Next Obligation.
  clear -Hg. unfold _parent in Hg |- *. rewrite Nat.Div0.div_div in Hg |- *.
  destruct i as [|i]; [cbn in Hg; lia|]. apply Nat.div_lt; lia.
Qed.

Equations _bubble_up_max (i : nat) : M unit by wf i lt :=
  _bubble_up_max i with le_dec 1 (_parent (_parent i)) => {
    | left Hg =>
        a <- getitem i ;;
        b <- getitem (_parent (_parent i)) ;;
        if (a >? b)%Z
        then swap i (_parent (_parent i)) ;; _bubble_up_max (_parent (_parent i))
        else ret tt;
    | right _ => ret tt }.
Next Obligation.
  clear -Hg. unfold _parent in Hg |- *. rewrite Nat.Div0.div_div in Hg |- *.
  destruct i as [|i]; [cbn in Hg; lia|]. apply Nat.div_lt; lia.
Qed.

Definition _bubble_up (i : nat) : M unit :=
  if i =? 1 then ret tt
  else
    let parent_i := _parent i in
    if _is_min_level i then
      a <- getitem i ;;
      b <- getitem parent_i ;;
      if (a >? b)%Z
      then swap i parent_i ;; _bubble_up_max parent_i
      else _bubble_up_min i
    else
      a <- getitem i ;;
      b <- getitem parent_i ;;
      if (a <? b)%Z
      then swap i parent_i ;; _bubble_up_min parent_i
      else _bubble_up_max i.

Definition insert (item : Z) : M unit :=
  append item ;;
  n <- get_size ;;
  set_size (n + 1) ;;
  n' <- get_size ;;
  _bubble_up n'.

(** ** Retrieval *)

Definition get_min : M Z :=
  n <- get_size ;;
  if n <? 1 then raise (IndexError "Heap is empty.")
  else getitem 1.

Definition get_max : M Z :=
  n <- get_size ;;
  if n <? 1 then raise (IndexError "Heap is empty.")
  else
    n1 <- get_size ;;
    if n1 =? 1 then getitem 1
    else
      n2 <- get_size ;;
      if n2 =? 2 then getitem 2
      else
        a <- getitem 2 ;;
        b <- getitem 3 ;;
        ret (Z.max a b).

(** ** Deletion *)

(** The body of [_trickle_down] is [pass]. *)
Definition _trickle_down (i : nat) : M unit := ret tt.

Definition delete_min : M Z :=
  n <- get_size ;;
  if n <? 1 then raise (IndexError "Heap is empty.")
  else
    min_val <- getitem 1 ;;
    v <- pop ;;
    setitem 1 v ;;
    n1 <- get_size ;;
    set_size (n1 - 1) ;;
    n2 <- get_size ;;
    (if 0 <? n2 then _trickle_down 1 else ret tt) ;;
    ret min_val.

(** The module's loop [for x in elements: mm_heap.insert(x)]. *)
Fixpoint insert_all (elements : list Z) : M unit :=
  match elements with
  | [] => ret tt
  | x :: rest => insert x ;; insert_all rest
  end.

(** ** Clients *)

(** A call of one of the four public methods. *)
Inductive call : Type :=
| Insert (item : Z)
| GetMin
| GetMax
| DeleteMin.

(** The value a call returns: [None] for [insert], the integer for the
    others. *)
Definition perform (c : call) : M (option Z) :=
  match c with
  | Insert item => insert item ;; ret None
  | GetMin => v <- get_min ;; ret (Some v)
  | GetMax => v <- get_max ;; ret (Some v)
  | DeleteMin => v <- delete_min ;; ret (Some v)
  end.

(** A client that issues the calls one after the other on the same
    object and catches the exceptions: each call starts from the object
    as the previous one left it, whether it returned or raised. *)
Fixpoint run (cs : list call) (s : MinMaxHeap) : list (exn + option Z) * MinMaxHeap :=
  match cs with
  | [] => ([], s)
  | c :: rest =>
      let (r, s1) := perform c s in
      let (rs, s2) := run rest s1 in
      (r :: rs, s2)
  end.







(** ** Recursion depth *)

(** The bubble-up procedures again, with a budget of nested calls: [None]
    when the budget runs out before the procedure returns. *)
Definition R (A : Type) : Type := MinMaxHeap -> option ((exn + A) * MinMaxHeap).

Definition lift {A} (m : M A) : R A := fun s => Some (m s).

Definition out_of_fuel {A} : R A := fun _ => None.

Definition bindR {A B} (m : M A) (k : A -> R B) : R B :=
  fun s => match m s with
           | (inl e, s') => Some (inl e, s')
           | (inr a, s') => k a s'
           end.

Fixpoint _bubble_up_min_fuel (fuel : nat) (i : nat) : R unit :=
  match fuel with
  | O => out_of_fuel
  | S fuel' =>
      if decide (1 <= _parent (_parent i)) then
        bindR (getitem i) (fun a =>
        bindR (getitem (_parent (_parent i))) (fun b =>
        if (a <? b)%Z
        then bindR (swap i (_parent (_parent i)))
                   (fun _ => _bubble_up_min_fuel fuel' (_parent (_parent i)))
        else lift (ret tt)))
      else lift (ret tt)
  end.

Fixpoint _bubble_up_max_fuel (fuel : nat) (i : nat) : R unit :=
  match fuel with
  | O => out_of_fuel
  | S fuel' =>
      if decide (1 <= _parent (_parent i)) then
        bindR (getitem i) (fun a =>
        bindR (getitem (_parent (_parent i))) (fun b =>
        if (a >? b)%Z
        then bindR (swap i (_parent (_parent i)))
                   (fun _ => _bubble_up_max_fuel fuel' (_parent (_parent i)))
        else lift (ret tt)))
      else lift (ret tt)
  end.

(** [_bubble_up] itself is one more call on top of the chain it enters. *)
Definition _bubble_up_fuel (fuel : nat) (i : nat) : R unit :=
  match fuel with
  | O => out_of_fuel
  | S fuel' =>
      if i =? 1 then lift (ret tt)
      else
        let parent_i := _parent i in
        if _is_min_level i then
          bindR (getitem i) (fun a =>
          bindR (getitem parent_i) (fun b =>
          if (a >? b)%Z
          then bindR (swap i parent_i) (fun _ => _bubble_up_max_fuel fuel' parent_i)
          else _bubble_up_min_fuel fuel' i))
        else
          bindR (getitem i) (fun a =>
          bindR (getitem parent_i) (fun b =>
          if (a <? b)%Z
          then bindR (swap i parent_i) (fun _ => _bubble_up_min_fuel fuel' parent_i)
          else _bubble_up_max_fuel fuel' i))
  end.

Definition insert_fuel (fuel : nat) (item : Z) : R unit :=
  match fuel with
  | O => out_of_fuel
  | S fuel' =>
      bindR (append item) (fun _ =>
      bindR get_size (fun n =>
      bindR (set_size (n + 1)) (fun _ =>
      bindR get_size (fun n' =>
      _bubble_up_fuel fuel' n'))))
  end.

(** Nested calls a chain started at index [i] can make: one per two
    levels of the tree above [i], and the call itself. *)
Definition chain_depth (i : nat) : nat := S (Nat.log2 i / 2).

(** * Specification *)

(** ** The implicit tree *)

(** [ancestor a d]: node [a] lies strictly above node [d] on the path from
    [d] to the root (index 1), following [_parent]. *)
Inductive ancestor : nat -> nat -> Prop :=
| anc_parent d : 2 <= d -> ancestor (_parent d) d
| anc_step a d : 2 <= d -> ancestor a (_parent d) -> ancestor a d.

(** The ordering a node on level parity [_is_min_level a] imposes on a
    value [vd] below it. *)
Definition level_ok (a : nat) (va vd : Z) : Prop :=
  if _is_min_level a then (va <= vd)%Z else (vd <= va)%Z.

(** Shape: the sentinel followed by exactly [size] elements. *)
Definition shape (s : MinMaxHeap) : Prop := length (heap s) = size s + 1.

(** Heap order: every node bounds its whole subtree, from below on a
    min-level and from above on a max-level. *)
Definition heap_order (s : MinMaxHeap) : Prop :=
  forall a d va vd,
    ancestor a d -> d <= size s ->
    heap s !! a = Some va -> heap s !! d = Some vd ->
    level_ok a va vd.

(** Spec wording of C5, first half: for a heap of at most two elements
    [get_max] returns the root itself, the value in slot 1. *)
Definition get_max_returns_root (s : MinMaxHeap) : Prop :=
  exists r, heap s !! 1 = Some r /\ fst (get_max s) = inr r.


(** * Auxiliary notions for the proofs *)

(** The list after [heap[i], heap[j] = heap[j], heap[i]]. *)
Definition swap_list (i j : nat) (h : list Z) : list Z :=
  <[j := h !!! i]> (<[i := h !!! j]> h).


(** [kept h' h]: list [h'] holds the values of [h], rearranged, with
    slot 0 untouched. *)
Definition kept (h' h : list Z) : Prop := h' ≡ₚ h /\ h' !! 0 = h !! 0.

(** [ordered h n]: heap order on the first [n] nodes, read with total
    lookups. *)
Definition ordered (h : list Z) (n : nat) : Prop :=
  forall a d, ancestor a d -> d <= n -> level_ok a (h !!! a) (h !!! d).

(** [ordered_but lvl i h n]: heap order except that the value at [i] has
    not yet been compared with its ancestors on the levels of parity
    [lvl]. *)
Definition ordered_but (lvl : bool) (i : nat) (h : list Z) (n : nat) : Prop :=
  forall a d, ancestor a d -> d <= n ->
    ~ (d = i /\ _is_min_level a = lvl) ->
    level_ok a (h !!! a) (h !!! d).

(** [out_of_order lvl x y]: value [x] sits below [y] on levels of parity
    [lvl] and breaks their order ([x < y] on min-levels, [x > y] on
    max-levels). *)
Definition out_of_order (lvl : bool) (x y : Z) : Prop :=
  if lvl then (x < y)%Z else (y < x)%Z.



(** [on_path k i]: slot [k] lies on the path from slot [i] up to the
    root, [i] included. *)
Definition on_path (k i : nat) : Prop := k = i \/ ancestor k i.

(** A call that returned rather than raised. *)
Definition returned {A} (r : exn + A) : bool :=
  match r with inr _ => true | inl _ => false end.

Definition is_insert (c : call) : bool :=
  match c with Insert _ => true | _ => false end.

Definition is_delete_min (c : call) : bool :=
  match c with DeleteMin => true | _ => false end.

(** How many calls of a run satisfy [p]. *)
Definition count_calls (p : call -> bool) (cs : list call) : nat :=
  length (List.filter p cs).

(** The elements a well-shaped heap stores: the list without the
    sentinel. *)
Definition elements_of (s : MinMaxHeap) : list Z := tail (heap s).

(** * Proofs *)

(** ** The implicit tree *)

Section Tree.

Lemma grandparent_lt (i : nat) : 1 <= _parent (_parent i) -> _parent (_parent i) < i.
Proof.
  unfold _parent. intros H.
  assert (i / 2 / 2 = i / 4) as E by (rewrite Nat.Div0.div_div; reflexivity).
  rewrite E in *. destruct (Nat.eq_dec i 0) as [->|]; [simpl in H; lia|].
  apply Nat.div_lt; lia.
Qed.

Lemma ancestor_inv a d :
  ancestor a d -> 2 <= d /\ (a = _parent d \/ ancestor a (_parent d)).
Proof. intros H; inversion H; subst; auto. Qed.

Lemma parent_lt d : 1 <= d -> _parent d < d.
Proof. intros H. unfold _parent. apply Nat.div_lt; lia. Qed.

Lemma parent_pos d : 2 <= d -> 1 <= _parent d.
Proof.
  intros H. unfold _parent.
  change 1 with (2 / 2). apply Nat.Div0.div_le_mono. exact H.
Qed.

Lemma parent_left_child i : _parent (_left_child i) = i.
Proof.
  unfold _parent, _left_child. symmetry. apply (Nat.div_unique _ _ _ 0); lia.
Qed.

Lemma parent_right_child i : _parent (_right_child i) = i.
Proof.
  unfold _parent, _right_child. symmetry. apply (Nat.div_unique _ _ _ 1); lia.
Qed.

Lemma ancestor_bounds a d : ancestor a d -> 1 <= a /\ a < d.
Proof.
  induction 1 as [d Hd | a d Hd _ [IH1 IH2]].
  - split; [apply parent_pos; exact Hd | apply parent_lt; lia].
  - split; [exact IH1|]. pose proof (parent_lt d). lia.
Qed.

Lemma ancestor_trans a b c : ancestor a b -> ancestor b c -> ancestor a c.
Proof.
  intros Hab Hbc. induction Hbc as [c Hc | b c Hc _ IH].
  - apply anc_step; assumption.
  - apply anc_step; [assumption | apply IH; assumption].
Qed.

(** The ancestors are exactly the iterated halvings that stay positive. *)
Lemma ancestor_shift a d :
  ancestor a d <-> exists k, 1 <= k /\ a = d / 2 ^ k /\ 1 <= a.
Proof.
  split.
  - induction 1 as [d Hd | a d Hd _ (k & Hk & -> & Ha)].
    + exists 1. split; [lia|]. split; [reflexivity | apply parent_pos; exact Hd].
    + exists (S k). split; [lia|]. split; [|exact Ha].
      unfold _parent. rewrite Nat.Div0.div_div. rewrite Nat.pow_succ_r'. reflexivity.
  - intros (k & Hk & -> & Ha). revert d Hk Ha.
    induction k as [|k IH]; intros d Hk Ha; [lia|].
    assert (d / 2 ^ S k = _parent d / 2 ^ k) as E.
    { unfold _parent. rewrite Nat.Div0.div_div. rewrite Nat.pow_succ_r'. reflexivity. }
    assert (2 <= d) as Hd.
    { destruct (le_lt_dec 2 d) as [|Hlt]; [assumption|].
      assert (d / 2 ^ S k = 0) as Z0.
      { apply Nat.div_small. pose proof (Nat.pow_le_mono_r 2 1 (S k)).
        simpl in *. lia. }
      lia. }
    rewrite E in *. destruct k as [|k].
    + rewrite Nat.pow_0_r, Nat.div_1_r. apply anc_parent; exact Hd.
    + apply anc_step; [exact Hd|]. apply IH; [lia | exact Ha].
Qed.

Lemma log2_parent d : 2 <= d -> Nat.log2 d = S (Nat.log2 (_parent d)).
Proof.
  intros Hd. unfold _parent.
  pose proof (Nat.div_mod_eq d 2) as E.
  pose proof (Nat.mod_upper_bound d 2 ltac:(lia)) as Hm.
  assert (1 <= d / 2) as Hp by (apply parent_pos; exact Hd).
  destruct (Nat.eq_dec (d mod 2) 0) as [E0|E0].
  - rewrite E at 1. rewrite E0, Nat.add_0_r. apply Nat.log2_double. lia.
  - assert (d = 2 * (d / 2) + 1) as E1 by lia.
    rewrite E1 at 1. apply Nat.log2_succ_double. lia.
Qed.

Lemma is_min_level_parent d :
  2 <= d -> _is_min_level (_parent d) = negb (_is_min_level d).
Proof.
  intros Hd. pose proof (parent_pos d Hd) as Hp.
  unfold _is_min_level.
  destruct (Nat.eqb_spec (_parent d) 0) as [|_]; [lia|].
  destruct (Nat.eqb_spec d 0) as [|_]; [lia|].
  rewrite (log2_parent d Hd). rewrite Nat.even_succ.
  rewrite <- Nat.negb_even. rewrite negb_involutive. reflexivity.
Qed.

Lemma is_min_level_grandparent d :
  1 <= _parent (_parent d) ->
  _is_min_level (_parent (_parent d)) = _is_min_level d.
Proof.
  intros Hg.
  assert (2 <= _parent d) as Hp.
  { destruct (le_lt_dec 2 (_parent d)); [assumption|].
    unfold _parent in *. rewrite (Nat.div_small (d / 2) 2) in Hg; lia. }
  assert (2 <= d) as Hd.
  { destruct (le_lt_dec 2 d); [assumption|].
    unfold _parent in *. rewrite (Nat.div_small d 2) in Hp; lia. }
  rewrite (is_min_level_parent _ Hp), (is_min_level_parent _ Hd).
  apply negb_involutive.
Qed.

Lemma grandparent_ge4 d : 1 <= _parent (_parent d) -> 2 <= _parent d /\ 2 <= d.
Proof.
  intros Hg.
  assert (2 <= _parent d) as Hp.
  { destruct (le_lt_dec 2 (_parent d)); [assumption|].
    unfold _parent in *. rewrite (Nat.div_small (d / 2) 2) in Hg; lia. }
  split; [exact Hp|].
  destruct (le_lt_dec 2 d); [assumption|].
  unfold _parent in *. rewrite (Nat.div_small d 2) in Hp; lia.
Qed.

(** A min-level node without a grandparent is the root; a max-level node
    without one is a child of the root. *)
Lemma no_grandparent d : ~ 1 <= _parent (_parent d) -> d < 4.
Proof.
  intros Hg. destruct (le_lt_dec 4 d) as [H4|]; [|assumption].
  exfalso. apply Hg. unfold _parent. rewrite Nat.Div0.div_div.
  change 1 with (4 / 4). apply Nat.Div0.div_le_mono. exact H4.
Qed.

Lemma min_level_small d : d < 4 -> _is_min_level d = true -> d = 1.
Proof.
  intros Hd Hm. destruct d as [|[|[|[|d]]]]; try lia; try reflexivity.
  all: vm_compute in Hm; discriminate.
Qed.

Lemma max_level_small d : 1 <= d -> d < 4 -> _is_min_level d = false -> _parent d = 1.
Proof.
  intros H1 Hd Hm. destruct d as [|[|[|[|d]]]]; try lia; try reflexivity.
  vm_compute in Hm; discriminate.
Qed.

End Tree.

(** ** Running the primitives on a heap whose slots exist *)

Section Primitives.

Lemma getitem_ok s i :
  i < length (heap s) -> getitem i s = (inr (heap s !!! i), s).
Proof.
  intros Hi. unfold getitem.
  rewrite (list_lookup_lookup_total_lt (heap s) i Hi). reflexivity.
Qed.

Lemma getitem_state s i : snd (getitem i s) = s.
Proof. unfold getitem. destruct (heap s !! i); reflexivity. Qed.

Lemma setitem_ok s i v :
  i < length (heap s) ->
  setitem i v s = (inr tt, mkHeap (<[i:=v]> (heap s)) (size s)).
Proof. intros Hi. unfold setitem. destruct (decide _); [reflexivity | lia]. Qed.

Lemma swap_ok s i j :
  i < length (heap s) -> j < length (heap s) ->
  swap i j s = (inr tt, mkHeap (swap_list i j (heap s)) (size s)).
Proof.
  intros Hi Hj. unfold swap, bind.
  rewrite (getitem_ok s j Hj), (getitem_ok s i Hi).
  rewrite (setitem_ok s i _ Hi). rewrite setitem_ok; cbn [heap size].
  - reflexivity.
  - rewrite length_insert. exact Hj.
Qed.

Lemma swap_list_length i j h : length (swap_list i j h) = length h.
Proof. unfold swap_list. rewrite !length_insert. reflexivity. Qed.

Lemma swap_list_lookup i j h k :
  i < length h -> j < length h ->
  swap_list i j h !!! k =
    if decide (k = j) then h !!! i
    else if decide (k = i) then h !!! j else h !!! k.
Proof.
  intros Hi Hj. unfold swap_list.
  destruct (decide (k = j)) as [->|Hkj].
  - rewrite list_lookup_total_insert_eq; [reflexivity|].
    rewrite length_insert. exact Hj.
  - rewrite list_lookup_total_insert_ne by congruence.
    destruct (decide (k = i)) as [->|Hki].
    + rewrite list_lookup_total_insert_eq; [reflexivity | exact Hi].
    + rewrite list_lookup_total_insert_ne by congruence. reflexivity.
Qed.

Lemma bind_getitem {B} i (k : Z -> M B) s :
  i < length (heap s) -> bind (getitem i) k s = k (heap s !!! i) s.
Proof. intros Hi. unfold bind. rewrite getitem_ok by exact Hi. reflexivity. Qed.

Lemma bind_swap {B} i j (k : unit -> M B) s :
  i < length (heap s) -> j < length (heap s) ->
  bind (swap i j) k s = k tt (mkHeap (swap_list i j (heap s)) (size s)).
Proof. intros Hi Hj. unfold bind. rewrite swap_ok by assumption. reflexivity. Qed.

End Primitives.

(** ** Heap order with one value still on its way up *)

Section Repair.

Variables (h : list Z) (n : nat).

Ltac level_cases :=
  unfold level_ok, out_of_order in *;
  repeat match goal with
    | |- context [_is_min_level ?a] =>
        let b := fresh "b" in
        let E := fresh "E" in
        remember (_is_min_level a) as b eqn:E in *; clear E
    | H : context [_is_min_level ?a] |- _ =>
        let b := fresh "b" in
        let E := fresh "E" in
        remember (_is_min_level a) as b eqn:E in *; clear E
    end;
  repeat match goal with
    | b : bool |- _ => destruct b
    end;
  simpl negb in *; cbv beta iota in *; try congruence; try lia.

(** One swap along the same-parity chain moves the exemption two levels
    up. *)
Lemma chain_swap lvl i :
  1 <= _parent (_parent i) -> i <= n -> n < length h ->
  _is_min_level i = lvl ->
  ordered_but lvl i h n ->
  out_of_order lvl (h !!! i) (h !!! _parent (_parent i)) ->
  ordered_but lvl (_parent (_parent i)) (swap_list i (_parent (_parent i)) h) n.
Proof.
  intros Hg Hin Hn Hlvl H Hxy.
  destruct (grandparent_ge4 i Hg) as [Hp2 Hi2].
  pose proof (is_min_level_grandparent i Hg) as Lg. rewrite Hlvl in Lg.
  pose proof (is_min_level_parent i Hi2) as Lp. rewrite Hlvl in Lp.
  pose proof (grandparent_lt i Hg) as Hgi.
  set (p := _parent i) in *. set (g := _parent p) in *.
  assert (ancestor p i) as Api by (apply anc_parent; exact Hi2).
  assert (ancestor g p) as Agp by (apply anc_parent; exact Hp2).
  assert (ancestor g i) as Agi by (eapply ancestor_trans; eassumption).
  pose proof (ancestor_bounds _ _ Api) as [_ Bpi].
  intros a d Had Hd Hex.
  pose proof (ancestor_bounds _ _ Had) as [Ha1 Had'].
  rewrite !swap_list_lookup by lia.
  destruct (decide (d = g)) as [->|Hdg].
  - (* the value that moved up, against the other parity above it *)
    destruct (decide (a = g)) as [|_]; [lia|].
    destruct (decide (a = i)) as [|_]; [lia|].
    assert (_is_min_level a <> lvl) as La by tauto.
    assert (level_ok a (h !!! a) (h !!! i)) as Hai.
    { apply H; [eapply ancestor_trans; eassumption | lia | tauto]. }
    exact Hai.
  - destruct (decide (d = i)) as [->|Hdi].
    + (* the value that moved down *)
      destruct (decide (a = g)) as [->|Hag].
      * level_cases.
      * destruct (decide (a = i)) as [|_]; [lia|].
        destruct (ancestor_inv _ _ Had) as [_ [->|Hap]].
        -- assert (level_ok g (h !!! g) (h !!! p)) as Hgp.
           { apply H; [exact Agp | lia | intros [E _]; lia]. }
           fold p. level_cases.
        -- fold p in Hap. destruct (ancestor_inv _ _ Hap) as [_ [->|Hag']].
           ++ fold g in Hag. congruence.
           ++ fold g in Hag'. apply H; [exact Hag' | lia | intros [E _]; lia].
    + (* a node off the two swapped slots *)
      destruct (decide (a = g)) as [->|Hag].
      * assert (level_ok g (h !!! g) (h !!! d)) as Hgd.
        { apply H; [exact Had | lia | tauto]. }
        level_cases.
      * destruct (decide (a = i)) as [->|Hai].
        -- assert (level_ok g (h !!! g) (h !!! d)) as Hgd.
           { apply H; [eapply ancestor_trans; eassumption | lia | tauto]. }
           level_cases.
        -- apply H; [exact Had | lia | tauto].
Qed.

(** When the grandparent is already in order the chain stops and the
    exemption is discharged. *)
Lemma chain_stop lvl i :
  1 <= _parent (_parent i) -> i <= n ->
  _is_min_level i = lvl ->
  ordered_but lvl i h n ->
  ~ out_of_order lvl (h !!! i) (h !!! _parent (_parent i)) ->
  ordered h n.
Proof.
  intros Hg Hin Hlvl H Hxy.
  destruct (grandparent_ge4 i Hg) as [Hp2 Hi2].
  pose proof (is_min_level_grandparent i Hg) as Lg. rewrite Hlvl in Lg.
  pose proof (is_min_level_parent i Hi2) as Lp. rewrite Hlvl in Lp.
  pose proof (grandparent_lt i Hg) as Hgi.
  set (p := _parent i) in *. set (g := _parent p) in *.
  intros a d Had Hd.
  destruct (decide (d = i /\ _is_min_level a = lvl)) as [[-> La]|Hex].
  - destruct (ancestor_inv _ _ Had) as [_ [->|Hap]].
    + fold p in La. rewrite Lp in La. destruct lvl; discriminate.
    + fold p in Hap. destruct (ancestor_inv _ _ Hap) as [_ [->|Hag]].
      * fold g. level_cases.
      * fold g in Hag.
        assert (level_ok a (h !!! a) (h !!! g)) as Hag'.
        { apply H; [exact Hag | lia | intros [E _]; lia]. }
        level_cases.
  - apply H; assumption.
Qed.

(** Without a grandparent there is no ancestor of the same parity. *)
Lemma chain_top lvl i :
  ~ 1 <= _parent (_parent i) ->
  _is_min_level i = lvl ->
  ordered_but lvl i h n -> ordered h n.
Proof.
  intros Hg Hlvl H a d Had Hd.
  apply H; [exact Had | exact Hd |]. intros [-> La].
  pose proof (no_grandparent _ Hg) as H4.
  pose proof (ancestor_bounds _ _ Had) as [Ha1 Hai].
  destruct lvl.
  - rewrite (min_level_small i H4 Hlvl) in Hai. lia.
  - assert (_parent i = 1) as Hp by (apply max_level_small; [lia | exact H4 | exact Hlvl]).
    destruct (ancestor_inv _ _ Had) as [Hi2 [->|Hap]].
    + rewrite Hp in La. vm_compute in La. discriminate.
    + rewrite Hp in Hap. apply ancestor_bounds in Hap. lia.
Qed.

(** The new leaf [n] against its parent: either the two are swapped and
    the parent's slot carries the exemption on the parent's parity, or
    the leaf keeps it on its own parity. *)
Lemma cross_swap lvl :
  2 <= n -> n < length h ->
  _is_min_level n = lvl ->
  ordered h (n - 1) ->
  out_of_order (negb lvl) (h !!! n) (h !!! _parent n) ->
  ordered_but (negb lvl) (_parent n) (swap_list n (_parent n) h) n.
Proof.
  intros Hn2 Hn Hlvl H Hxy.
  pose proof (is_min_level_parent n Hn2) as Lp. rewrite Hlvl in Lp.
  pose proof (parent_lt n ltac:(lia)) as Hpn.
  set (p := _parent n) in *.
  intros a d Had Hd Hex.
  pose proof (ancestor_bounds _ _ Had) as [Ha1 Had'].
  rewrite !swap_list_lookup by lia.
  destruct (decide (d = p)) as [->|Hdp].
  - destruct (decide (a = p)) as [|_]; [lia|].
    destruct (decide (a = n)) as [|_]; [lia|].
    assert (level_ok a (h !!! a) (h !!! p)) as Hap by (apply H; [exact Had | lia]).
    assert (_is_min_level a <> negb lvl) as La by tauto.
    level_cases.
  - destruct (decide (d = n)) as [->|Hdn].
    + destruct (decide (a = p)) as [->|Hap].
      * level_cases.
      * destruct (decide (a = n)) as [|_]; [lia|].
        destruct (ancestor_inv _ _ Had) as [_ [->|Hap']].
        -- fold p in Hap. congruence.
        -- fold p in Hap'. apply H; [exact Hap' | lia].
    + destruct (decide (a = p)) as [->|Hap].
      * assert (level_ok p (h !!! p) (h !!! d)) as Hpd by (apply H; [exact Had | lia]).
        level_cases.
      * destruct (decide (a = n)) as [|_]; [lia|].
        apply H; [exact Had | lia].
Qed.

Lemma cross_stay lvl :
  2 <= n ->
  _is_min_level n = lvl ->
  ordered h (n - 1) ->
  ~ out_of_order (negb lvl) (h !!! n) (h !!! _parent n) ->
  ordered_but lvl n h n.
Proof.
  intros Hn2 Hlvl H Hxy.
  pose proof (is_min_level_parent n Hn2) as Lp. rewrite Hlvl in Lp.
  pose proof (parent_lt n ltac:(lia)) as Hpn.
  set (p := _parent n) in *.
  intros a d Had Hd Hex.
  destruct (decide (d = n)) as [->|Hdn].
  - assert (_is_min_level a <> lvl) as La by tauto.
    destruct (ancestor_inv _ _ Had) as [_ [->|Hap]].
    + fold p. level_cases.
    + fold p in Hap.
      assert (level_ok a (h !!! a) (h !!! p)) as Hap' by (apply H; [exact Hap | lia]).
      level_cases.
  - apply H; [exact Had | lia].
Qed.

End Repair.

(** ** The bubble-up procedures restore the order *)

Section BubbleUp.

Lemma _bubble_up_min_eq i :
  _bubble_up_min i =
    if decide (1 <= _parent (_parent i)) then
      a <- getitem i ;;
      b <- getitem (_parent (_parent i)) ;;
      if (a <? b)%Z
      then swap i (_parent (_parent i)) ;; _bubble_up_min (_parent (_parent i))
      else ret tt
    else ret tt.
Proof.
  rewrite _bubble_up_min_equation_1.
  destruct (le_dec 1 (_parent (_parent i))); destruct (decide _); try lia; reflexivity.
Qed.

Lemma _bubble_up_max_eq i :
  _bubble_up_max i =
    if decide (1 <= _parent (_parent i)) then
      a <- getitem i ;;
      b <- getitem (_parent (_parent i)) ;;
      if (a >? b)%Z
      then swap i (_parent (_parent i)) ;; _bubble_up_max (_parent (_parent i))
      else ret tt
    else ret tt.
Proof.
  rewrite _bubble_up_max_equation_1.
  destruct (le_dec 1 (_parent (_parent i))); destruct (decide _); try lia; reflexivity.
Qed.

Lemma _bubble_up_min_spec i : forall h n,
  i <= n -> n < length h ->
  _is_min_level i = true ->
  ordered_but true i h n ->
  exists h', _bubble_up_min i (mkHeap h n) = (inr tt, mkHeap h' n)
             /\ length h' = length h /\ ordered h' n.
Proof.
  induction i as [i IH] using lt_wf_ind. intros h n Hin Hn Hlvl H.
  rewrite _bubble_up_min_eq.
  destruct (decide (1 <= _parent (_parent i))) as [Hg|Hg].
  - pose proof (grandparent_lt i Hg) as Hgi.
    rewrite !bind_getitem by (cbn [heap]; lia). cbn [heap size].
    destruct (Z.ltb_spec (h !!! i) (h !!! _parent (_parent i))) as [Hlt|Hge].
    + rewrite bind_swap by (cbn [heap]; lia). cbn [heap size].
      destruct (IH (_parent (_parent i)) Hgi
                  (swap_list i (_parent (_parent i)) h) n) as (h' & E & L & O).
      * lia.
      * rewrite swap_list_length. exact Hn.
      * rewrite is_min_level_grandparent by exact Hg. exact Hlvl.
      * apply chain_swap; assumption.
      * exists h'. rewrite swap_list_length in L. auto.
    + exists h. split; [reflexivity|]. split; [reflexivity|].
      eapply chain_stop; try eassumption. unfold out_of_order. lia.
  - exists h. split; [reflexivity|]. split; [reflexivity|].
    eapply chain_top; eassumption.
Qed.

Lemma _bubble_up_max_spec i : forall h n,
  i <= n -> n < length h ->
  _is_min_level i = false ->
  ordered_but false i h n ->
  exists h', _bubble_up_max i (mkHeap h n) = (inr tt, mkHeap h' n)
             /\ length h' = length h /\ ordered h' n.
Proof.
  induction i as [i IH] using lt_wf_ind. intros h n Hin Hn Hlvl H.
  rewrite _bubble_up_max_eq.
  destruct (decide (1 <= _parent (_parent i))) as [Hg|Hg].
  - pose proof (grandparent_lt i Hg) as Hgi.
    rewrite !bind_getitem by (cbn [heap]; lia). cbn [heap size].
    rewrite Z.gtb_ltb.
    destruct (Z.ltb_spec (h !!! _parent (_parent i)) (h !!! i)) as [Hlt|Hge].
    + rewrite bind_swap by (cbn [heap]; lia). cbn [heap size].
      destruct (IH (_parent (_parent i)) Hgi
                  (swap_list i (_parent (_parent i)) h) n) as (h' & E & L & O).
      * lia.
      * rewrite swap_list_length. exact Hn.
      * rewrite is_min_level_grandparent by exact Hg. exact Hlvl.
      * apply chain_swap; assumption.
      * exists h'. rewrite swap_list_length in L. auto.
    + exists h. split; [reflexivity|]. split; [reflexivity|].
      eapply chain_stop; try eassumption. unfold out_of_order. lia.
  - exists h. split; [reflexivity|]. split; [reflexivity|].
    eapply chain_top; eassumption.
Qed.

(** [_bubble_up] at the freshly appended last slot. *)
Lemma _bubble_up_spec h n :
  1 <= n -> n < length h ->
  ordered h (n - 1) ->
  exists h', _bubble_up n (mkHeap h n) = (inr tt, mkHeap h' n)
             /\ length h' = length h /\ ordered h' n.
Proof.
  intros Hn1 Hn H. unfold _bubble_up.
  destruct (Nat.eqb_spec n 1) as [->|Hne].
  - exists h. split; [reflexivity|]. split; [reflexivity|].
    intros a d Had Hd. apply ancestor_bounds in Had. lia.
  - assert (2 <= n) as Hn2 by lia.
    pose proof (parent_lt n Hn1) as Hpn.
    pose proof (is_min_level_parent n Hn2) as Lp.
    cbv zeta. destruct (_is_min_level n) eqn:Hlvl.
    + rewrite !bind_getitem by (cbn [heap]; lia). cbn [heap size].
      rewrite Z.gtb_ltb.
      destruct (Z.ltb_spec (h !!! _parent n) (h !!! n)) as [Hlt|Hge].
      * rewrite bind_swap by (cbn [heap]; lia). cbn [heap size].
        destruct (_bubble_up_max_spec (_parent n) (swap_list n (_parent n) h) n)
          as (h' & E & L & O).
        -- lia.
        -- rewrite swap_list_length. exact Hn.
        -- rewrite Lp. reflexivity.
        -- apply (cross_swap h n true); assumption.
        -- exists h'. rewrite swap_list_length in L. auto.
      * apply _bubble_up_min_spec; try assumption; try lia.
        apply (cross_stay h n true); try assumption. unfold out_of_order. cbn [negb]. lia.
    + rewrite !bind_getitem by (cbn [heap]; lia). cbn [heap size].
      destruct (Z.ltb_spec (h !!! n) (h !!! _parent n)) as [Hlt|Hge].
      * rewrite bind_swap by (cbn [heap]; lia). cbn [heap size].
        destruct (_bubble_up_min_spec (_parent n) (swap_list n (_parent n) h) n)
          as (h' & E & L & O).
        -- lia.
        -- rewrite swap_list_length. exact Hn.
        -- rewrite Lp. reflexivity.
        -- apply (cross_swap h n false); assumption.
        -- exists h'. rewrite swap_list_length in L. auto.
      * apply _bubble_up_max_spec; try assumption; try lia.
        apply (cross_stay h n false); try assumption. unfold out_of_order. cbn [negb]. lia.
Qed.

End BubbleUp.

(** ** Insertion keeps shape and order *)

Section Insert.

Lemma heap_order_ordered s :
  shape s -> (heap_order s <-> ordered (heap s) (size s)).
Proof.
  unfold shape. intros Hs. split.
  - intros H a d Had Hd. pose proof (ancestor_bounds _ _ Had) as [_ Hlt].
    apply (H a d); try assumption; apply list_lookup_lookup_total_lt; lia.
  - intros H a d va vd Had Hd Ea Ed.
    apply list_lookup_total_correct in Ea, Ed. subst va vd.
    apply H; assumption.
Qed.

Lemma ordered_app h n x :
  n < length h -> ordered h n -> ordered (h ++ [x]) n.
Proof.
  intros Hn H a d Had Hd. pose proof (ancestor_bounds _ _ Had) as [_ Hlt].
  rewrite !lookup_total_app_l by lia. apply H; assumption.
Qed.

Lemma insert_spec item s :
  shape s -> heap_order s ->
  exists s', insert item s = (inr tt, s')
             /\ shape s' /\ size s' = size s + 1 /\ heap_order s'.
Proof.
  intros Hs Ho. destruct s as [h n]. unfold shape in Hs. cbn [heap size] in Hs.
  apply heap_order_ordered in Ho; [|exact Hs]. cbn [heap size] in Ho.
  unfold insert, bind, append, get_size, set_size. cbn [heap size].
  destruct (_bubble_up_spec (h ++ [item]) (n + 1)) as (h' & E & L & O).
  - lia.
  - rewrite length_app. cbn. lia.
  - replace (n + 1 - 1) with n by lia. apply ordered_app; [lia | exact Ho].
  - exists (mkHeap h' (n + 1)). split; [exact E|].
    rewrite length_app in L. cbn in L.
    assert (shape (mkHeap h' (n + 1))) as Hs' by (unfold shape; cbn; lia).
    split; [exact Hs'|]. split; [reflexivity|].
    apply heap_order_ordered; [exact Hs' | exact O].
Qed.

Lemma init_shape : shape init.
Proof. reflexivity. Qed.

Lemma init_heap_order : heap_order init.
Proof.
  intros a d va vd Had Hd _ _. apply ancestor_bounds in Had. cbn in Hd. lia.
Qed.

Lemma insert_all_spec elements : forall s,
  shape s -> heap_order s ->
  exists s', insert_all elements s = (inr tt, s')
             /\ shape s' /\ size s' = size s + length elements /\ heap_order s'.
Proof.
  induction elements as [|x rest IH]; intros s Hs Ho.
  - exists s. cbn. split; [reflexivity|]. split; [exact Hs|]. split; [lia | exact Ho].
  - destruct (insert_spec x s Hs Ho) as (s1 & E1 & Hs1 & N1 & Ho1).
    destruct (IH s1 Hs1 Ho1) as (s2 & E2 & Hs2 & N2 & Ho2).
    exists s2. cbn [insert_all]. unfold bind. rewrite E1.
    split; [exact E2|]. split; [exact Hs2|]. split; [cbn; lia | exact Ho2].
Qed.

End Insert.

(** ** Recursion depth of the chains *)

Section Depth.

Lemma chain_depth_grandparent i :
  1 <= _parent (_parent i) ->
  chain_depth i = S (chain_depth (_parent (_parent i))).
Proof.
  intros Hg. destruct (grandparent_ge4 i Hg) as [Hp2 Hi2].
  unfold chain_depth.
  rewrite (log2_parent i Hi2), (log2_parent (_parent i) Hp2).
  set (x := Nat.log2 (_parent (_parent i))).
  replace (S (S x)) with (x + 1 * 2) by lia.
  rewrite Nat.div_add by lia. lia.
Qed.

Lemma chain_depth_mono i j : i <= j -> chain_depth i <= chain_depth j.
Proof.
  intros H. unfold chain_depth. apply le_n_S.
  apply Nat.Div0.div_le_mono. apply Nat.log2_le_mono. exact H.
Qed.

Lemma _bubble_up_min_fuel_enough fuel : forall i s,
  chain_depth i <= fuel ->
  _bubble_up_min_fuel fuel i s = Some (_bubble_up_min i s).
Proof.
  induction fuel as [|fuel IH]; intros i s H.
  - unfold chain_depth in H. lia.
  - cbn [_bubble_up_min_fuel]. rewrite _bubble_up_min_eq.
    destruct (decide (1 <= _parent (_parent i))) as [Hg|Hg]; [|reflexivity].
    unfold bindR, bind, lift.
    destruct (getitem i s) as [[e|a] s1]; [reflexivity|].
    destruct (getitem (_parent (_parent i)) s1) as [[e|b] s2]; [reflexivity|].
    destruct (a <? b)%Z; [|reflexivity].
    destruct (swap i (_parent (_parent i)) s2) as [[e|u] s3]; [reflexivity|].
    apply IH. rewrite (chain_depth_grandparent i Hg) in H. lia.
Qed.

Lemma _bubble_up_max_fuel_enough fuel : forall i s,
  chain_depth i <= fuel ->
  _bubble_up_max_fuel fuel i s = Some (_bubble_up_max i s).
Proof.
  induction fuel as [|fuel IH]; intros i s H.
  - unfold chain_depth in H. lia.
  - cbn [_bubble_up_max_fuel]. rewrite _bubble_up_max_eq.
    destruct (decide (1 <= _parent (_parent i))) as [Hg|Hg]; [|reflexivity].
    unfold bindR, bind, lift.
    destruct (getitem i s) as [[e|a] s1]; [reflexivity|].
    destruct (getitem (_parent (_parent i)) s1) as [[e|b] s2]; [reflexivity|].
    destruct (a >? b)%Z; [|reflexivity].
    destruct (swap i (_parent (_parent i)) s2) as [[e|u] s3]; [reflexivity|].
    apply IH. rewrite (chain_depth_grandparent i Hg) in H. lia.
Qed.

Lemma _bubble_up_fuel_enough fuel i s :
  S (chain_depth i) <= fuel ->
  _bubble_up_fuel fuel i s = Some (_bubble_up i s).
Proof.
  intros H. destruct fuel as [|fuel]; [lia|].
  assert (chain_depth i <= fuel) as Hi by lia.
  assert (chain_depth (_parent i) <= fuel) as Hp.
  { etransitivity; [apply chain_depth_mono|exact Hi].
    unfold _parent. apply Nat.Div0.div_le_upper_bound. lia. }
  unfold _bubble_up_fuel, _bubble_up.
  destruct (i =? 1); [reflexivity|]. cbv zeta.
  destruct (_is_min_level i); unfold bindR, bind.
  - destruct (getitem i s) as [[e|a] s1]; [reflexivity|].
    destruct (getitem (_parent i) s1) as [[e|b] s2]; [reflexivity|].
    destruct (a >? b)%Z.
    + destruct (swap i (_parent i) s2) as [[e|u] s3]; [reflexivity|].
      apply _bubble_up_max_fuel_enough; exact Hp.
    + apply _bubble_up_min_fuel_enough; exact Hi.
  - destruct (getitem i s) as [[e|a] s1]; [reflexivity|].
    destruct (getitem (_parent i) s1) as [[e|b] s2]; [reflexivity|].
    destruct (a <? b)%Z.
    + destruct (swap i (_parent i) s2) as [[e|u] s3]; [reflexivity|].
      apply _bubble_up_min_fuel_enough; exact Hp.
    + apply _bubble_up_max_fuel_enough; exact Hi.
Qed.

Lemma insert_fuel_enough fuel item s :
  S (S (chain_depth (size s + 1))) <= fuel ->
  insert_fuel fuel item s = Some (insert item s).
Proof.
  intros H. destruct fuel as [|fuel]; [lia|].
  unfold insert_fuel, insert, bindR, bind, append, get_size, set_size.
  cbn [heap size]. apply _bubble_up_fuel_enough. lia.
Qed.

End Depth.

(** ** Observers *)

Section Observers.

Lemma get_min_state s : snd (get_min s) = s.
Proof.
  unfold get_min, bind, get_size, raise.
  destruct (size s <? 1); [reflexivity | apply getitem_state].
Qed.

Lemma get_max_state s : snd (get_max s) = s.
Proof.
  unfold get_max, bind, get_size, raise, ret.
  destruct (size s <? 1); [reflexivity|].
  destruct (size s =? 1); [apply getitem_state|].
  destruct (size s =? 2); [apply getitem_state|].
  pose proof (getitem_state s 2) as E2. destruct (getitem 2 s) as [[e|a] s2].
  - exact E2.
  - cbn in E2. subst s2.
    pose proof (getitem_state s 3) as E3. destruct (getitem 3 s) as [[e|b] s3]; exact E3.
Qed.

Lemma get_min_empty h :
  get_min (mkHeap h 0) = (inl (IndexError "Heap is empty."), mkHeap h 0).
Proof. reflexivity. Qed.

Lemma get_max_empty h :
  get_max (mkHeap h 0) = (inl (IndexError "Heap is empty."), mkHeap h 0).
Proof. reflexivity. Qed.

Lemma get_min_nonempty s :
  shape s -> 1 <= size s -> get_min s = (inr (heap s !!! 1), s).
Proof.
  unfold shape. intros Hs Hn. unfold get_min, bind, get_size.
  destruct (Nat.ltb_spec (size s) 1); [lia|].
  apply getitem_ok. lia.
Qed.

Lemma get_max_nonempty s :
  shape s -> 1 <= size s ->
  get_max s =
    (inr (match size s with
          | 1 => heap s !!! 1
          | 2 => heap s !!! 2
          | _ => Z.max (heap s !!! 2) (heap s !!! 3)
          end), s).
Proof.
  destruct s as [h n]. unfold shape. cbn [heap size]. intros Hs Hn.
  unfold get_max, bind, get_size, ret. cbn [heap size].
  destruct n as [|[|[|n]]]; [lia | | |];
    cbv beta iota delta [size Nat.ltb Nat.leb Nat.eqb].
  - apply getitem_ok. cbn [heap]. lia.
  - apply getitem_ok. cbn [heap]. lia.
  - rewrite !getitem_ok by (cbn [heap]; lia). reflexivity.
Qed.

End Observers.

(** ** What the operations do to the shape *)

Section Shape.

Lemma swap_list_kept i j (h : list Z) :
  1 <= i -> 1 <= j -> i < length h -> j < length h ->
  kept (swap_list i j h) h.
Proof.
  intros Hi1 Hj1 Hi Hj. unfold kept, swap_list. split.
  - apply Permutation_insert_swap; apply list_lookup_lookup_total_lt; assumption.
  - rewrite !list_lookup_insert_ne by lia. reflexivity.
Qed.

Lemma kept_refl (h : list Z) : kept h h.
Proof. split; reflexivity. Qed.

Lemma kept_trans (h1 h2 h3 : list Z) : kept h1 h2 -> kept h2 h3 -> kept h1 h3.
Proof. intros [P1 E1] [P2 E2]. split; [rewrite P1; exact P2 | congruence]. Qed.

(** The chains and [_bubble_up] never raise when the slots up to the
    starting index exist, whatever the values are, and they only move
    values among the slots after the sentinel. *)
Lemma _bubble_up_min_returns i : forall h n,
  i < length h ->
  exists h', _bubble_up_min i (mkHeap h n) = (inr tt, mkHeap h' n)
             /\ length h' = length h /\ kept h' h.
Proof.
  induction i as [i IH] using lt_wf_ind. intros h n Hi.
  rewrite _bubble_up_min_eq.
  destruct (decide (1 <= _parent (_parent i))) as [Hg|Hg];
    [|exists h; auto using kept_refl].
  pose proof (grandparent_lt i Hg) as Hgi.
  rewrite !bind_getitem by (cbn [heap]; lia). cbn [heap size].
  destruct (_ <? _)%Z; [|exists h; auto using kept_refl].
  rewrite bind_swap by (cbn [heap]; lia). cbn [heap size].
  destruct (IH _ Hgi (swap_list i (_parent (_parent i)) h) n) as (h' & E & L & K).
  - rewrite swap_list_length. lia.
  - exists h'. rewrite swap_list_length in L. split; [exact E|]. split; [exact L|].
    eapply kept_trans; [exact K|]. apply swap_list_kept; lia.
Qed.

Lemma _bubble_up_max_returns i : forall h n,
  i < length h ->
  exists h', _bubble_up_max i (mkHeap h n) = (inr tt, mkHeap h' n)
             /\ length h' = length h /\ kept h' h.
Proof.
  induction i as [i IH] using lt_wf_ind. intros h n Hi.
  rewrite _bubble_up_max_eq.
  destruct (decide (1 <= _parent (_parent i))) as [Hg|Hg];
    [|exists h; auto using kept_refl].
  pose proof (grandparent_lt i Hg) as Hgi.
  rewrite !bind_getitem by (cbn [heap]; lia). cbn [heap size].
  destruct (_ >? _)%Z; [|exists h; auto using kept_refl].
  rewrite bind_swap by (cbn [heap]; lia). cbn [heap size].
  destruct (IH _ Hgi (swap_list i (_parent (_parent i)) h) n) as (h' & E & L & K).
  - rewrite swap_list_length. lia.
  - exists h'. rewrite swap_list_length in L. split; [exact E|]. split; [exact L|].
    eapply kept_trans; [exact K|]. apply swap_list_kept; lia.
Qed.

Lemma _bubble_up_returns i h n :
  1 <= i -> i < length h ->
  exists h', _bubble_up i (mkHeap h n) = (inr tt, mkHeap h' n)
             /\ length h' = length h /\ kept h' h.
Proof.
  intros Hi1 Hi. unfold _bubble_up.
  destruct (Nat.eqb_spec i 1) as [|Hne]; [exists h; auto using kept_refl|]. cbv zeta.
  pose proof (parent_lt i Hi1) as Hp.
  pose proof (parent_pos i ltac:(lia)) as Hp1.
  destruct (_is_min_level i).
  - rewrite !bind_getitem by (cbn [heap]; lia). cbn [heap size].
    destruct (_ >? _)%Z; [|apply _bubble_up_min_returns; exact Hi].
    rewrite bind_swap by (cbn [heap]; lia). cbn [heap size].
    destruct (_bubble_up_max_returns (_parent i) (swap_list i (_parent i) h) n)
      as (h' & E & L & K).
    + rewrite swap_list_length. lia.
    + exists h'. rewrite swap_list_length in L. split; [exact E|]. split; [exact L|].
      eapply kept_trans; [exact K|]. apply swap_list_kept; lia.
  - rewrite !bind_getitem by (cbn [heap]; lia). cbn [heap size].
    destruct (_ <? _)%Z; [|apply _bubble_up_max_returns; exact Hi].
    rewrite bind_swap by (cbn [heap]; lia). cbn [heap size].
    destruct (_bubble_up_min_returns (_parent i) (swap_list i (_parent i) h) n)
      as (h' & E & L & K).
    + rewrite swap_list_length. lia.
    + exists h'. rewrite swap_list_length in L. split; [exact E|]. split; [exact L|].
      eapply kept_trans; [exact K|]. apply swap_list_kept; lia.
Qed.

(** On a well-shaped object [insert] always returns, with the new item
    added to the elements and the sentinel in place. *)
Lemma insert_returns item s :
  shape s ->
  exists s', insert item s = (inr tt, s') /\ shape s' /\ size s' = size s + 1
             /\ kept (heap s') (heap s ++ [item]).
Proof.
  destruct s as [h n]. unfold shape. cbn [heap size]. intros Hs.
  unfold insert, bind, append, get_size, set_size. cbn [heap size].
  destruct (_bubble_up_returns (n + 1) (h ++ [item]) (n + 1)) as (h' & E & L & K).
  - lia.
  - rewrite length_app. cbn. lia.
  - exists (mkHeap h' (n + 1)). rewrite length_app in L. cbn in L.
    cbn [heap size]. split; [exact E|]. split; [lia|]. split; [lia | exact K].
Qed.

Lemma insert_all_returns elements : forall s,
  shape s ->
  exists s', insert_all elements s = (inr tt, s')
             /\ kept (heap s') (heap s ++ elements).
Proof.
  induction elements as [|x rest IH]; intros s Hs.
  - exists s. split; [reflexivity|]. rewrite app_nil_r. apply kept_refl.
  - destruct (insert_returns x s Hs) as (s1 & E1 & Hs1 & _ & K1).
    destruct (IH s1 Hs1) as (s2 & E2 & K2).
    exists s2. cbn [insert_all]. unfold bind. rewrite E1. split; [exact E2|].
    eapply kept_trans; [exact K2|]. destruct K1 as [P1 Z1]. split.
    + rewrite P1. rewrite <- app_assoc. reflexivity.
    + assert (0 < length (heap s)) as Hl by (unfold shape in Hs; lia).
      assert (0 < length (heap s1)) as Hl1 by (unfold shape in Hs1; lia).
      rewrite (lookup_app_l (heap s1)) by exact Hl1.
      rewrite Z1. rewrite !lookup_app_l by exact Hl. reflexivity.
Qed.

(** After a run of inserts into a new heap the list is the sentinel
    followed by a rearrangement of the inserted elements. *)
Lemma insert_all_contents elements s :
  insert_all elements init = (inr tt, s) ->
  exists rest, heap s = 0%Z :: rest /\ rest ≡ₚ elements.
Proof.
  intros E. destruct (insert_all_returns elements init init_shape) as (s' & E' & [P Z0]).
  rewrite E in E'. injection E' as <-. cbn [heap init] in P, Z0.
  destruct (heap s) as [|z rest]; [discriminate|]. cbn in Z0. injection Z0 as ->.
  exists rest. split; [reflexivity|]. cbn [app] in P.
  exact (Permutation.Permutation_cons_inv P).
Qed.

Lemma delete_min_empty h :
  delete_min (mkHeap h 0) = (inl (IndexError "Heap is empty."), mkHeap h 0).
Proof. reflexivity. Qed.

(** With a single element the popped value is the root itself and the
    assignment to slot 1 has nowhere to go. *)
Lemma delete_min_one z x :
  delete_min (mkHeap [z; x] 1)
  = (inl (IndexError "list assignment index out of range"), mkHeap [z] 1).
Proof. reflexivity. Qed.

Lemma delete_min_many s :
  shape s -> 2 <= size s ->
  delete_min s =
    (inr (heap s !!! 1),
     mkHeap (<[1 := heap s !!! size s]> (take (size s) (heap s))) (size s - 1)).
Proof.
  destruct s as [h n]. unfold shape. cbn [heap size]. intros Hs Hn.
  unfold delete_min. unfold bind at 1. unfold get_size at 1. cbn [size].
  destruct (Nat.ltb_spec n 1); [lia|].
  rewrite bind_getitem by (cbn [heap]; lia). cbn [heap].
  unfold bind at 1. unfold pop. cbn [heap size].
  rewrite last_lookup. replace (Init.Nat.pred (length h)) with n by lia.
  rewrite (list_lookup_lookup_total_lt h n) by lia.
  replace (length h - 1) with n by lia.
  unfold bind at 1. rewrite setitem_ok; cbn [heap size].
  - unfold bind, get_size, set_size, _trickle_down, ret. cbn [heap size].
    destruct (0 <? n - 1); reflexivity.
  - rewrite length_take. lia.
Qed.

(** From a well-shaped object every call that returns leaves a
    well-shaped object. *)
Lemma shape_preserved c s v s' :
  shape s -> perform c s = (inr v, s') -> shape s'.
Proof.
  intros Hs. destruct c as [item| | |]; unfold perform, bind, ret.
  - destruct (insert_returns item s Hs) as (s1 & E & Hs1 & _ & _). rewrite E.
    intros [= _ <-]. exact Hs1.
  - pose proof (get_min_state s) as E. destruct (get_min s) as [[e|x] s1]; [discriminate|].
    cbn in E. intros [= _ <-]. subst s1. exact Hs.
  - pose proof (get_max_state s) as E. destruct (get_max s) as [[e|x] s1]; [discriminate|].
    cbn in E. intros [= _ <-]. subst s1. exact Hs.
  - destruct (le_lt_dec 2 (size s)) as [H2|H2].
    + rewrite (delete_min_many s Hs H2). intros [= _ <-].
      unfold shape in *. cbn [heap size]. rewrite length_insert, length_take. lia.
    + destruct s as [h n]. unfold shape in Hs. cbn [heap size] in *.
      destruct n as [|[|n]]; [rewrite delete_min_empty; discriminate | | lia].
      destruct h as [|z [|x [|y h]]]; cbn in Hs; try lia.
      rewrite delete_min_one. discriminate.
Qed.

End Shape.

(** ** When the operations raise *)

Section Raises.

Lemma get_min_raises_iff s :
  shape s -> (exists e, fst (get_min s) = inl e) <-> size s = 0.
Proof.
  intros Hs. split.
  - intros [e E]. destruct (Nat.eq_dec (size s) 0) as [|Hn]; [assumption|].
    rewrite get_min_nonempty in E by (assumption || lia). discriminate.
  - destruct s as [h n]. cbn [size]. intros ->. rewrite get_min_empty. eauto.
Qed.

Lemma get_max_raises_iff s :
  shape s -> (exists e, fst (get_max s) = inl e) <-> size s = 0.
Proof.
  intros Hs. split.
  - intros [e E]. destruct (Nat.eq_dec (size s) 0) as [|Hn]; [assumption|].
    rewrite get_max_nonempty in E by (assumption || lia). discriminate.
  - destruct s as [h n]. cbn [size]. intros ->. rewrite get_max_empty. eauto.
Qed.

(** [delete_min] raises on the empty heap and also on the one-element
    heap. *)
Lemma delete_min_raises_iff s :
  shape s -> (exists e, fst (delete_min s) = inl e) <-> size s <= 1.
Proof.
  intros Hs. split.
  - intros [e E]. destruct (le_lt_dec (size s) 1) as [|Hn]; [assumption|].
    rewrite delete_min_many in E by (assumption || lia). discriminate.
  - destruct s as [h n]. unfold shape in Hs. cbn [heap size] in *. intros Hn.
    destruct n as [|[|n]]; [rewrite delete_min_empty; eauto | | lia].
    destruct h as [|z [|x [|y h]]]; cbn in Hs; try lia.
    rewrite delete_min_one. eauto.
Qed.

End Raises.

(** ** The extremes of an ordered heap *)

Section Extremes.

Lemma root_ancestor d : 2 <= d -> ancestor 1 d.
Proof.
  induction d as [d IH] using lt_wf_ind. intros Hd.
  pose proof (parent_pos d Hd) as Hp. pose proof (parent_lt d ltac:(lia)) as Hlt.
  destruct (decide (_parent d = 1)) as [E|E].
  - rewrite <- E. apply anc_parent. exact Hd.
  - apply anc_step; [exact Hd|]. apply IH; lia.
Qed.

Lemma second_level_ancestor d : 4 <= d -> ancestor 2 d \/ ancestor 3 d.
Proof.
  induction d as [d IH] using lt_wf_ind. intros Hd.
  pose proof (parent_lt d ltac:(lia)) as Hlt.
  assert (2 <= _parent d) as Hp.
  { unfold _parent. change 2 with (4 / 2). apply Nat.Div0.div_le_mono. exact Hd. }
  destruct (decide (_parent d = 2)) as [E|E2].
  - left. rewrite <- E. apply anc_parent. lia.
  - destruct (decide (_parent d = 3)) as [E|E3].
    + right. rewrite <- E. apply anc_parent. lia.
    + destruct (IH (_parent d) Hlt ltac:(lia)) as [H|H];
        [left | right]; (apply anc_step; [lia | exact H]).
Qed.

Lemma ordered_root_least h n k :
  ordered h n -> 1 <= k <= n -> (h !!! 1%nat <= h !!! k)%Z.
Proof.
  intros H [Hk1 Hkn]. destruct (decide (k = 1)) as [->|Hne]; [lia|].
  exact (H 1 k (root_ancestor k ltac:(lia)) Hkn).
Qed.

Lemma ordered_children_greatest h n k :
  ordered h n -> 3 <= n -> 1 <= k <= n ->
  (h !!! k <= Z.max (h !!! 2%nat) (h !!! 3%nat))%Z.
Proof.
  intros H Hn [Hk1 Hkn].
  assert (h !!! 1%nat <= h !!! 2%nat)%Z as H12 by (apply (ordered_root_least h n); [exact H | lia]).
  destruct (le_lt_dec 4 k) as [H4|H4].
  - destruct (second_level_ancestor k H4) as [A|A]; pose proof (H _ _ A Hkn) as L;
      unfold level_ok in L; cbn in L; lia.
  - destruct k as [|[|[|[|k]]]]; lia.
Qed.

(** On an ordered heap [get_min] returns a stored value that is at most
    every stored value. *)
Lemma get_min_least s :
  shape s -> heap_order s -> 1 <= size s ->
  get_min s = (inr (heap s !!! 1%nat), s)
  /\ forall k, 1 <= k <= size s -> (heap s !!! 1%nat <= heap s !!! k)%Z.
Proof.
  intros Hs Ho Hn. split; [apply get_min_nonempty; assumption|].
  intros k Hk. apply (ordered_root_least _ (size s)); [|exact Hk].
  apply heap_order_ordered; assumption.
Qed.

(** On an ordered heap [get_max] returns a stored value that is at least
    every stored value. *)
Lemma get_max_greatest s :
  shape s -> heap_order s -> 1 <= size s ->
  exists m j, get_max s = (inr m, s) /\ 1 <= j <= size s /\ m = heap s !!! j
              /\ forall k, 1 <= k <= size s -> (heap s !!! k <= m)%Z.
Proof.
  intros Hs Ho Hn. pose proof (get_max_nonempty s Hs Hn) as E.
  apply heap_order_ordered in Ho; [|exact Hs].
  destruct (size s) as [|[|[|n]]] eqn:En; [lia | | |].
  - exists (heap s !!! 1%nat), 1. split; [exact E|]. split; [lia|]. split; [reflexivity|].
    intros k Hk. replace k with 1 by lia. lia.
  - exists (heap s !!! 2%nat), 2. split; [exact E|]. split; [lia|]. split; [reflexivity|].
    intros k Hk. destruct (decide (k = 2)) as [->|]; [lia|]. replace k with 1 by lia.
    apply (ordered_root_least _ 2); [exact Ho | lia].
  - destruct (Z.max_spec (heap s !!! 2%nat) (heap s !!! 3%nat)) as [[_ Em]|[_ Em]].
    + exists (Z.max (heap s !!! 2%nat) (heap s !!! 3%nat)), 3.
      split; [exact E|]. split; [lia|]. split; [exact Em|].
      intros k Hk. apply (ordered_children_greatest _ (S (S (S n)))); [exact Ho | lia | exact Hk].
    + exists (Z.max (heap s !!! 2%nat) (heap s !!! 3%nat)), 2.
      split; [exact E|]. split; [lia|]. split; [exact Em|].
      intros k Hk. apply (ordered_children_greatest _ (S (S (S n)))); [exact Ho | lia | exact Hk].
Qed.

(** The stored elements, slot by slot. *)
Lemma elements_of_lookup s j : elements_of s !! j = heap s !! S j.
Proof. unfold elements_of. destruct (heap s); reflexivity. Qed.

Lemma elements_of_length s : shape s -> length (elements_of s) = size s.
Proof.
  unfold shape, elements_of. intros Hs. destruct (heap s); cbn in *; lia.
Qed.

Lemma elements_of_slot s x :
  shape s -> x ∈ elements_of s <-> exists k, 1 <= k <= size s /\ heap s !!! k = x.
Proof.
  intros Hs. pose proof (elements_of_length s Hs) as Hl. split.
  - intros Hx. apply list_elem_of_lookup in Hx as [j Hj].
    pose proof (lookup_lt_Some _ _ _ Hj) as Hlt.
    rewrite elements_of_lookup in Hj. exists (S j). split; [lia|].
    apply list_lookup_total_correct. exact Hj.
  - intros (k & [Hk1 Hkn] & <-). apply list_elem_of_lookup. exists (k - 1).
    rewrite elements_of_lookup. replace (S (k - 1)) with k by lia.
    apply list_lookup_lookup_total_lt. unfold shape in Hs. lia.
Qed.

End Extremes.

(** ** Which slots an insertion touches *)

Section Frame.

Lemma swap_list_lookup_ne i j (h : list Z) k :
  k <> i -> k <> j -> swap_list i j h !! k = h !! k.
Proof.
  intros Hi Hj. unfold swap_list. rewrite !list_lookup_insert_ne by congruence.
  reflexivity.
Qed.

Lemma on_path_parent k i : 2 <= i -> on_path k (_parent i) -> on_path k i.
Proof.
  intros Hi [->|H]; right; [apply anc_parent | apply anc_step]; assumption.
Qed.

Lemma on_path_grandparent k i :
  1 <= _parent (_parent i) -> on_path k (_parent (_parent i)) -> on_path k i.
Proof.
  intros Hg H. destruct (grandparent_ge4 i Hg) as [Hp2 Hi2].
  apply on_path_parent; [exact Hi2|]. apply on_path_parent; assumption.
Qed.

Lemma _bubble_up_min_frame i : forall h n k,
  i < length h -> ~ on_path k i ->
  heap (snd (_bubble_up_min i (mkHeap h n))) !! k = h !! k.
Proof.
  induction i as [i IH] using lt_wf_ind. intros h n k Hi Hk.
  rewrite _bubble_up_min_eq.
  destruct (decide (1 <= _parent (_parent i))) as [Hg|Hg]; [|reflexivity].
  pose proof (grandparent_lt i Hg) as Hgi.
  rewrite !bind_getitem by (cbn [heap]; lia). cbn [heap size].
  destruct (_ <? _)%Z; [|reflexivity].
  rewrite bind_swap by (cbn [heap]; lia). cbn [heap size].
  assert (~ on_path k (_parent (_parent i))) as Hkg.
  { intros H. apply Hk. apply on_path_grandparent; assumption. }
  rewrite IH; [| exact Hgi | rewrite swap_list_length; lia | exact Hkg].
  apply swap_list_lookup_ne; intros ->; [apply Hk | apply Hkg]; left; reflexivity.
Qed.

Lemma _bubble_up_max_frame i : forall h n k,
  i < length h -> ~ on_path k i ->
  heap (snd (_bubble_up_max i (mkHeap h n))) !! k = h !! k.
Proof.
  induction i as [i IH] using lt_wf_ind. intros h n k Hi Hk.
  rewrite _bubble_up_max_eq.
  destruct (decide (1 <= _parent (_parent i))) as [Hg|Hg]; [|reflexivity].
  pose proof (grandparent_lt i Hg) as Hgi.
  rewrite !bind_getitem by (cbn [heap]; lia). cbn [heap size].
  destruct (_ >? _)%Z; [|reflexivity].
  rewrite bind_swap by (cbn [heap]; lia). cbn [heap size].
  assert (~ on_path k (_parent (_parent i))) as Hkg.
  { intros H. apply Hk. apply on_path_grandparent; assumption. }
  rewrite IH; [| exact Hgi | rewrite swap_list_length; lia | exact Hkg].
  apply swap_list_lookup_ne; intros ->; [apply Hk | apply Hkg]; left; reflexivity.
Qed.

Lemma _bubble_up_frame i h n k :
  1 <= i -> i < length h -> ~ on_path k i ->
  heap (snd (_bubble_up i (mkHeap h n))) !! k = h !! k.
Proof.
  intros Hi1 Hi Hk. unfold _bubble_up.
  destruct (Nat.eqb_spec i 1) as [|Hne]; [reflexivity|]. cbv zeta.
  pose proof (parent_lt i Hi1) as Hp.
  assert (~ on_path k (_parent i)) as Hkp.
  { intros H. apply Hk. apply on_path_parent; [lia | exact H]. }
  assert (k <> i) as Hki by (intros ->; apply Hk; left; reflexivity).
  assert (k <> _parent i) as Hkpi by (intros ->; apply Hkp; left; reflexivity).
  destruct (_is_min_level i).
  - rewrite !bind_getitem by (cbn [heap]; lia). cbn [heap size].
    destruct (_ >? _)%Z; [|apply _bubble_up_min_frame; assumption].
    rewrite bind_swap by (cbn [heap]; lia). cbn [heap size].
    rewrite _bubble_up_max_frame; [| rewrite swap_list_length; lia | exact Hkp].
    apply swap_list_lookup_ne; assumption.
  - rewrite !bind_getitem by (cbn [heap]; lia). cbn [heap size].
    destruct (_ <? _)%Z; [|apply _bubble_up_max_frame; assumption].
    rewrite bind_swap by (cbn [heap]; lia). cbn [heap size].
    rewrite _bubble_up_min_frame; [| rewrite swap_list_length; lia | exact Hkp].
    apply swap_list_lookup_ne; assumption.
Qed.

End Frame.

(** ** What [delete_min] removes *)

Section Delete.

Lemma delete_min_contents s :
  shape s -> 2 <= size s ->
  elements_of s ≡ₚ heap s !!! 1 :: elements_of (snd (delete_min s))
  /\ heap (snd (delete_min s)) !! 0 = heap s !! 0.
Proof.
  intros Hs Hn. rewrite (delete_min_many s Hs Hn). cbn [snd].
  destruct s as [h n]. unfold shape, elements_of in *. cbn [heap size] in *.
  destruct h as [|z [|a r]]; cbn [length] in Hs; try lia.
  destruct n as [|[|n]]; try lia.
  assert (length r = S n) as Hr by lia.
  cbn [take]. cbn [tail]. change ((z :: a :: r) !!! 1) with a.
  change ((z :: a :: r) !!! S (S n)) with (r !!! n).
  split; [|reflexivity].
  cbn. apply Permutation_skip.
  assert (r = (take n r ++ [r !!! n])%list) as Er.
  { rewrite <- (take_S_r r n (r !!! n)) by (apply list_lookup_lookup_total_lt; lia).
    symmetry. apply take_ge. lia. }
  rewrite Er at 1. rewrite Permutation_app_comm. reflexivity.
Qed.

End Delete.

(** ** Runs in which no call raises *)

Section Runs.

Lemma count_calls_cons p c cs :
  count_calls p (c :: cs) = (if p c then 1 else 0) + count_calls p cs.
Proof. unfold count_calls. cbn. destruct (p c); reflexivity. Qed.

Lemma perform_returned c s r s' :
  shape s -> perform c s = (r, s') -> returned r = true ->
  shape s'
  /\ size s' + (if is_delete_min c then 1 else 0)
     = size s + (if is_insert c then 1 else 0).
Proof.
  intros Hs E Hr. destruct r as [e|v]; [discriminate|].
  split; [exact (shape_preserved c s v s' Hs E)|].
  destruct c as [item| | |]; unfold perform, bind, ret in E; cbn [is_delete_min is_insert].
  - destruct (insert_returns item s Hs) as (s1 & E1 & _ & N1 & _). rewrite E1 in E.
    injection E as _ <-. lia.
  - pose proof (get_min_state s) as Es. destruct (get_min s) as [[e|x] s1]; [discriminate|].
    cbn in Es. injection E as _ <-. subst s1. lia.
  - pose proof (get_max_state s) as Es. destruct (get_max s) as [[e|x] s1]; [discriminate|].
    cbn in Es. injection E as _ <-. subst s1. lia.
  - destruct (le_lt_dec 2 (size s)) as [H2|H2].
    + rewrite (delete_min_many s Hs H2) in E. injection E as _ <-. cbn [size]. lia.
    + assert (exists e, fst (delete_min s) = inl e) as [e Ee]
        by (apply delete_min_raises_iff; [exact Hs | lia]).
      destruct (delete_min s) as [[e'|x] s1]; [discriminate E | discriminate Ee].
Qed.

Lemma quiet_run cs : forall s rs s',
  shape s -> run cs s = (rs, s') -> forallb returned rs = true ->
  shape s'
  /\ size s' + count_calls is_delete_min cs = size s + count_calls is_insert cs.
Proof.
  induction cs as [|c cs IH]; intros s rs s' Hs E Hr.
  - cbn in E. injection E as <- <-. split; [exact Hs | reflexivity].
  - cbn [run] in E. destruct (perform c s) as [r s1] eqn:E1.
    destruct (run cs s1) as [rs1 s2] eqn:E2. injection E as <- <-.
    cbn [forallb] in Hr. apply andb_prop in Hr as [Hr1 Hr2].
    destruct (perform_returned c s r s1 Hs E1 Hr1) as [Hs1 N1].
    destruct (IH s1 rs1 s2 Hs1 E2 Hr2) as [Hs2 N2].
    split; [exact Hs2|]. rewrite !count_calls_cons. lia.
Qed.

End Runs.

(** ** The stored elements *)

Section Contents.

Lemma kept_tail (h' h : list Z) : kept h' h -> tail h' ≡ₚ tail h.
Proof.
  intros [P E]. destruct h as [|z r].
  - apply Permutation_nil_r in P. subst h'. reflexivity.
  - destruct h' as [|z' r']; [discriminate|]. cbn in E. injection E as ->.
    cbn. exact (Permutation.Permutation_cons_inv P).
Qed.

Lemma insert_elements item s s' :
  shape s -> insert item s = (inr tt, s') ->
  shape s' /\ size s' = size s + 1
  /\ elements_of s' ≡ₚ item :: elements_of s
  /\ heap s' !! 0 = heap s !! 0.
Proof.
  intros Hs E. destruct (insert_returns item s Hs) as (s1 & E1 & Hs1 & N1 & K1).
  rewrite E in E1. injection E1 as <-.
  split; [exact Hs1|]. split; [exact N1|].
  assert (0 < length (heap s)) as Hl by (unfold shape in Hs; lia).
  split.
  - unfold elements_of. rewrite (kept_tail _ _ K1).
    destruct (heap s) as [|z r]; [cbn in Hl; lia|]. cbn.
    rewrite Permutation_app_comm. reflexivity.
  - destruct K1 as [_ Z1]. rewrite Z1. apply lookup_app_l. exact Hl.
Qed.

Lemma insert_all_facts elements s :
  insert_all elements init = (inr tt, s) ->
  shape s /\ heap_order s /\ size s = length elements
  /\ elements_of s ≡ₚ elements.
Proof.
  intros E.
  destruct (insert_all_spec elements init init_shape init_heap_order)
    as (s1 & E1 & Hs & N & Ho).
  rewrite E in E1. injection E1 as <-.
  destruct (insert_all_contents elements s E) as (rest & Eh & P).
  split; [exact Hs|]. split; [exact Ho|]. split; [exact N|].
  unfold elements_of. rewrite Eh. exact P.
Qed.

End Contents.

(** ** Names that resolve, and what the methods remove *)

Section Lookup.














End Lookup.

(** * Properties of the specification *)

(** C1. The heap order does not survive [delete_min]: after inserting 1,
    2 and 3 into a new heap, [delete_min] returns 1, moves the last
    element 3 to the root and stops ([_trickle_down] does nothing), so
    the min-level root 3 sits above the smaller 2. *)
Theorem delete_min_breaks_heap_order :
  run [Insert 1; Insert 2; Insert 3; DeleteMin] init
  = ([inr None; inr None; inr None; inr (Some 1%Z)], mkHeap [0; 3; 2]%Z 2)
  /\ ~ heap_order (mkHeap [0; 3; 2]%Z 2).
Proof.
  split; [vm_compute; reflexivity|].
  intros H.
  assert (level_ok 1 3 2) as L.
  { apply (H 1 2); [apply (anc_parent 2); lia | cbn; lia | reflexivity | reflexivity]. }
  unfold level_ok in L. cbn in L. lia.
Qed.

(** C2. [delete_min] on a one-element heap mutates and then fails: it
    pops the only element off the list, then raises on the assignment to
    slot 1, leaving the list one short of [size]. *)
Theorem delete_min_partial_mutation :
  insert 5 init = (inr tt, mkHeap [0; 5]%Z 1)
  /\ delete_min (mkHeap [0; 5]%Z 1)
     = (inl (IndexError "list assignment index out of range"), mkHeap [0%Z] 1)
  /\ heap (mkHeap [0%Z] 1) <> heap (mkHeap [0; 5]%Z 1).
Proof.
  split; [vm_compute; reflexivity|]. split; [reflexivity | discriminate].
Qed.

(** C3. [delete_min] raises on every one-element heap, whose size is 1
    and not 0, and the exception is not the empty-heap one. *)
Theorem delete_min_raises_on_one_element (z x : Z) :
  shape (mkHeap [z; x] 1)
  /\ size (mkHeap [z; x] 1) <> 0
  /\ fst (delete_min (mkHeap [z; x] 1))
     = inl (IndexError "list assignment index out of range")
  /\ IndexError "list assignment index out of range" <> IndexError "Heap is empty.".
Proof.
  split; [reflexivity|]. split; [discriminate|]. split; [reflexivity | discriminate].
Qed.

(** C4. Inserting 10, 8, 30, 2, 50, 15, 60 in that order into a new heap
    gives [get_min() == 2] and [get_max() == 60]. *)
Theorem example_min_max :
  exists s, insert_all [10; 8; 30; 2; 50; 15; 60]%Z init = (inr tt, s)
            /\ fst (get_min s) = inr 2%Z /\ fst (get_max s) = inr 60%Z.
Proof.
  exists (mkHeap [0; 2; 50; 60; 8; 10; 15; 30]%Z 7).
  split; [vm_compute; reflexivity|]. split; reflexivity.
Qed.

(** C5, as stated, fails at size 2: after inserting 1 and 5, [get_max]
    returns the element in slot 2, which is 5, not the root 1. *)
Lemma get_max_size_two_not_root :
  exists s, insert_all [1; 5]%Z init = (inr tt, s)
            /\ size s <= 2 /\ ~ get_max_returns_root s.
Proof.
  exists (mkHeap [0; 1; 5]%Z 2). split; [vm_compute; reflexivity|].
  split; [cbn; lia|]. intros (r & Er & E). cbn in Er, E. congruence.
Qed.

(** C5, amended. On a non-empty well-shaped heap [get_max] leaves the
    object as it is and returns the root (slot 1) at size 1, the only
    child (slot 2) at size 2, and the larger of the two root children
    (slots 2 and 3) from size 3 on. *)
Theorem get_max_cases (s : MinMaxHeap) :
  shape s -> 1 <= size s ->
  get_max s =
    (inr (match size s with
          | 1 => heap s !!! 1
          | 2 => heap s !!! 2
          | _ => Z.max (heap s !!! 2) (heap s !!! 3)
          end), s).
Proof. apply get_max_nonempty. Qed.

(** C5, amended, at a three-element heap: the larger child 5 is returned. *)
Lemma get_max_cases_witness :
  shape (mkHeap [0; 1; 5; 3]%Z 3)
  /\ 1 <= size (mkHeap [0; 1; 5; 3]%Z 3)
  /\ get_max (mkHeap [0; 1; 5; 3]%Z 3) = (inr 5%Z, mkHeap [0; 1; 5; 3]%Z 3).
Proof.
  split; [reflexivity|]. split; [cbn; repeat constructor|].
  apply (get_max_cases (mkHeap [0; 1; 5; 3]%Z 3)); [reflexivity | cbn; repeat constructor].
Defined.

(** C6. The shape does not hold after every completed call: a client
    that catches the exception of [delete_min] on a one-element heap is
    left with a list one short of [size]; the next [insert] raises while
    comparing with the missing slot, and the [get_min] after it returns
    normally on an object whose list has 2 entries for [size] 2. *)
Theorem shape_lost_after_failed_delete_min :
  run [Insert 5; DeleteMin; Insert 7; GetMin] init
  = ([inr None;
      inl (IndexError "list assignment index out of range");
      inl (IndexError "list index out of range");
      inr (Some 7%Z)],
     mkHeap [0; 7]%Z 2)
  /\ ~ shape (mkHeap [0; 7]%Z 2).
Proof.
  split; [vm_compute; reflexivity|]. unfold shape. cbn. lia.
Qed.



(** C9. [get_min], [get_max] and the read of [size] leave the object as
    it was, list and size, on every state: on those where they succeed
    and also on those where they raise. *)
Theorem observers_pure (s : MinMaxHeap) :
  snd (get_min s) = s /\ snd (get_max s) = s /\ snd (get_size s) = s.
Proof.
  split; [apply get_min_state|]. split; [apply get_max_state | reflexivity].
Qed.

(** C8. Every operation returns on every state of the object.  The
    self-recursive procedures [_bubble_up_min] and [_bubble_up_max],
    started at any index [i] on any state, return within
    [chain_depth i = 1 + floor(log2 i) / 2] nested calls, with the result
    of the model functions above; [insert] returns within two calls more
    (itself and [_bubble_up]); [get_min], [get_max] and [delete_min]
    contain no loop and no recursion ([_trickle_down] is [pass]) and
    produce a result, a value or an exception, on every state. *)
Theorem operations_terminate (s : MinMaxHeap) (spare : nat) :
  (forall i, _bubble_up_min_fuel (chain_depth i + spare) i s
             = Some (_bubble_up_min i s))
  /\ (forall i, _bubble_up_max_fuel (chain_depth i + spare) i s
                = Some (_bubble_up_max i s))
  /\ (forall item, insert_fuel (2 + chain_depth (size s + 1) + spare) item s
                   = Some (insert item s))
  /\ (forall c, exists r s', perform c s = (r, s')).
Proof.
  split; [|split; [|split]].
  - intros i. apply _bubble_up_min_fuel_enough. lia.
  - intros i. apply _bubble_up_max_fuel_enough. lia.
  - intros item. apply insert_fuel_enough. lia.
  - intros c. destruct (perform c s) as [r s']. exists r, s'. reflexivity.
Qed.

(** C10. Starting from a newly constructed heap, every sequence of
    [insert] calls runs without an exception and leaves the sentinel
    followed by a rearrangement of exactly the inserted elements, in
    min-max heap order: every min-level node is at most, and every
    max-level node at least, every value in its subtree.  Since the list
    of inserted elements is arbitrary, this holds after each insert of a
    sequence. *)
Theorem insert_only_heap_order (elements : list Z) :
  exists s rest,
    insert_all elements init = (inr tt, s)
    /\ heap s = 0%Z :: rest /\ rest ≡ₚ elements
    /\ shape s /\ size s = length elements /\ heap_order s.
Proof.
  destruct (insert_all_spec elements init init_shape init_heap_order)
    as (s & E & Hs & N & Ho).
  destruct (insert_all_contents elements s E) as (rest & Eh & P).
  exists s, rest. cbn in N. auto 10.
Qed.

(** * Further properties of the code *)

(** X1. After inserting a non-empty list of elements into a new heap,
    [get_min] leaves the heap as it is and returns the least of the
    inserted elements. *)
Theorem get_min_after_inserts (elements : list Z) (s : MinMaxHeap) :
  elements <> [] ->
  insert_all elements init = (inr tt, s) ->
  exists m, get_min s = (inr m, s)
            /\ m ∈ elements /\ forall x, x ∈ elements -> (m <= x)%Z.
Proof.
  intros Hne E. destruct (insert_all_facts elements s E) as (Hs & Ho & N & P).
  assert (1 <= size s) as Hn by (destruct elements; [congruence | cbn in N; lia]).
  destruct (get_min_least s Hs Ho Hn) as [Eg Hle].
  exists (heap s !!! 1). split; [exact Eg|]. split.
  - rewrite <- P. apply elements_of_slot; [exact Hs|]. exists 1. split; [lia | reflexivity].
  - intros x Hx. rewrite <- P in Hx.
    apply elements_of_slot in Hx as (k & Hk & <-); [|exact Hs]. apply Hle. exact Hk.
Qed.

Lemma get_min_after_inserts_witness :
  [3; 1; 2]%Z <> []
  /\ insert_all [3; 1; 2]%Z init = (inr tt, mkHeap [0; 1; 3; 2]%Z 3)
  /\ exists m, get_min (mkHeap [0; 1; 3; 2]%Z 3) = (inr m, mkHeap [0; 1; 3; 2]%Z 3)
               /\ m ∈ [3; 1; 2]%Z /\ forall x, x ∈ [3; 1; 2]%Z -> (m <= x)%Z.
Proof.
  split; [discriminate|]. split; [vm_compute; reflexivity|].
  apply (get_min_after_inserts [3; 1; 2]%Z); [discriminate | vm_compute; reflexivity].
Defined.

(** X2. After inserting a non-empty list of elements into a new heap,
    [get_max] leaves the heap as it is and returns the greatest of the
    inserted elements. *)
Theorem get_max_after_inserts (elements : list Z) (s : MinMaxHeap) :
  elements <> [] ->
  insert_all elements init = (inr tt, s) ->
  exists m, get_max s = (inr m, s)
            /\ m ∈ elements /\ forall x, x ∈ elements -> (x <= m)%Z.
Proof.
  intros Hne E. destruct (insert_all_facts elements s E) as (Hs & Ho & N & P).
  assert (1 <= size s) as Hn by (destruct elements; [congruence | cbn in N; lia]).
  destruct (get_max_greatest s Hs Ho Hn) as (m & j & Eg & Hj & Em & Hge).
  exists m. split; [exact Eg|]. split.
  - rewrite <- P. apply elements_of_slot; [exact Hs|]. exists j. split; [exact Hj | congruence].
  - intros x Hx. rewrite <- P in Hx.
    apply elements_of_slot in Hx as (k & Hk & <-); [|exact Hs]. apply Hge. exact Hk.
Qed.

Lemma get_max_after_inserts_witness :
  [3; 1; 2]%Z <> []
  /\ insert_all [3; 1; 2]%Z init = (inr tt, mkHeap [0; 1; 3; 2]%Z 3)
  /\ exists m, get_max (mkHeap [0; 1; 3; 2]%Z 3) = (inr m, mkHeap [0; 1; 3; 2]%Z 3)
               /\ m ∈ [3; 1; 2]%Z /\ forall x, x ∈ [3; 1; 2]%Z -> (x <= m)%Z.
Proof.
  split; [discriminate|]. split; [vm_compute; reflexivity|].
  apply (get_max_after_inserts [3; 1; 2]%Z); [discriminate | vm_compute; reflexivity].
Defined.

(** X3. On every well-shaped heap, ordered or not, [insert] returns
    without raising: the shape is kept, [size] grows by one, the stored
    elements are the old ones and the new item, and the sentinel stays
    in slot 0. *)
Theorem insert_on_well_shaped (item : Z) (s : MinMaxHeap) :
  shape s ->
  exists s', insert item s = (inr tt, s')
             /\ shape s' /\ size s' = size s + 1
             /\ elements_of s' ≡ₚ item :: elements_of s
             /\ heap s' !! 0 = heap s !! 0.
Proof.
  intros Hs. destruct (insert_returns item s Hs) as (s' & E & _).
  exists s'. split; [exact E|]. exact (insert_elements item s s' Hs E).
Qed.

Lemma insert_on_well_shaped_witness :
  shape (mkHeap [0; 3; 2]%Z 2)
  /\ exists s', insert 1 (mkHeap [0; 3; 2]%Z 2) = (inr tt, s')
                /\ shape s' /\ size s' = 2 + 1
                /\ elements_of s' ≡ₚ 1%Z :: [3; 2]%Z
                /\ heap s' !! 0 = Some 0%Z.
Proof.
  split; [reflexivity|].
  apply (insert_on_well_shaped 1 (mkHeap [0; 3; 2]%Z 2)). reflexivity.
Defined.

(** X4. [insert] keeps the min-max heap order of any well-shaped heap
    that has it: every min-level node stays at most, and every max-level
    node at least, every value in its subtree. *)
Theorem insert_keeps_heap_order (item : Z) (s : MinMaxHeap) :
  shape s -> heap_order s ->
  exists s', insert item s = (inr tt, s') /\ shape s' /\ heap_order s'.
Proof.
  intros Hs Ho. destruct (insert_spec item s Hs Ho) as (s' & E & Hs' & _ & Ho').
  exists s'. auto.
Qed.

Lemma insert_keeps_heap_order_witness :
  shape (mkHeap [0; 1; 3; 2]%Z 3) /\ heap_order (mkHeap [0; 1; 3; 2]%Z 3)
  /\ exists s', insert 0 (mkHeap [0; 1; 3; 2]%Z 3) = (inr tt, s')
                /\ shape s' /\ heap_order s'.
Proof.
  assert (heap_order (mkHeap [0; 1; 3; 2]%Z 3)) as Ho.
  { apply (insert_all_facts [3; 1; 2]%Z). vm_compute. reflexivity. }
  split; [reflexivity|]. split; [exact Ho|].
  apply (insert_keeps_heap_order 0 (mkHeap [0; 1; 3; 2]%Z 3)); [reflexivity | exact Ho].
Defined.

(** X5. [insert] only moves values along the path from the new last slot
    to the root: every older slot that is not an ancestor of the new slot
    holds the same value afterwards. *)
Theorem insert_leaves_off_path_slots (item : Z) (s : MinMaxHeap) (k : nat) :
  shape s -> k <= size s -> ~ ancestor k (size s + 1) ->
  heap (snd (insert item s)) !! k = heap s !! k.
Proof.
  intros Hs Hk Hanc. destruct s as [h n]. unfold shape in Hs. cbn [heap size] in *.
  unfold insert, bind, append, get_size, set_size. cbn [heap size].
  rewrite _bubble_up_frame.
  - apply lookup_app_l. lia.
  - lia.
  - rewrite length_app. cbn. lia.
  - intros [E|A]; [lia | exact (Hanc A)].
Qed.

Lemma insert_leaves_off_path_slots_witness :
  shape (mkHeap [0; 1; 3; 2]%Z 3) /\ 3 <= 3 /\ ~ ancestor 3 (3 + 1)
  /\ heap (snd (insert 0 (mkHeap [0; 1; 3; 2]%Z 3))) !! 3 = Some 2%Z.
Proof.
  assert (~ ancestor 3 (3 + 1)) as Hanc.
  { intros H. destruct (ancestor_inv _ _ H) as [_ [E|A]].
    - vm_compute in E. discriminate.
    - apply ancestor_bounds in A. vm_compute in A. lia. }
  split; [reflexivity|]. split; [lia|]. split; [exact Hanc|].
  apply (insert_leaves_off_path_slots 0 (mkHeap [0; 1; 3; 2]%Z 3) 3);
    [reflexivity | cbn; lia | exact Hanc].
Defined.

(** X6. On a well-shaped heap with at least two elements [delete_min]
    returns the value in the root slot, puts the former last element in
    its place, keeps the shape, lowers [size] by one and removes exactly
    the returned value from the stored elements. *)
Theorem delete_min_removes_root (s : MinMaxHeap) :
  shape s -> 2 <= size s ->
  exists m s', delete_min s = (inr m, s')
               /\ heap s !! 1 = Some m
               /\ heap s' !! 1 = heap s !! size s
               /\ shape s' /\ size s' = size s - 1
               /\ elements_of s ≡ₚ m :: elements_of s'
               /\ heap s' !! 0 = heap s !! 0.
Proof.
  intros Hs Hn. pose proof (delete_min_many s Hs Hn) as E.
  pose proof (delete_min_contents s Hs Hn) as [P Z0]. rewrite E in P, Z0. cbn [snd] in P, Z0.
  unfold shape in Hs.
  eexists _, _. split; [exact E|]. split.
  - apply list_lookup_lookup_total_lt. lia.
  - split.
    + cbn [heap]. rewrite list_lookup_insert_eq by (rewrite length_take; lia).
      symmetry. apply list_lookup_lookup_total_lt. lia.
    + split; [unfold shape; cbn [heap size]; rewrite length_insert, length_take; lia|].
      split; [reflexivity|]. split; [exact P | exact Z0].
Qed.

Lemma delete_min_removes_root_witness :
  shape (mkHeap [0; 1; 3; 2]%Z 3) /\ 2 <= 3
  /\ exists m s', delete_min (mkHeap [0; 1; 3; 2]%Z 3) = (inr m, s')
                  /\ Some 1%Z = Some m
                  /\ heap s' !! 1 = Some 2%Z
                  /\ shape s' /\ size s' = 3 - 1
                  /\ [1; 3; 2]%Z ≡ₚ m :: elements_of s'
                  /\ heap s' !! 0 = Some 0%Z.
Proof.
  split; [reflexivity|]. split; [lia|].
  apply (delete_min_removes_root (mkHeap [0; 1; 3; 2]%Z 3)); [reflexivity | cbn; lia].
Defined.

(** X7. On a well-shaped heap in min-max order with at least two
    elements, [delete_min] returns the least of the stored elements. *)
Theorem delete_min_returns_least (s : MinMaxHeap) :
  shape s -> heap_order s -> 2 <= size s ->
  exists m s', delete_min s = (inr m, s')
               /\ m ∈ elements_of s
               /\ forall x, x ∈ elements_of s -> (m <= x)%Z.
Proof.
  intros Hs Ho Hn. pose proof (delete_min_many s Hs Hn) as E.
  destruct (get_min_least s Hs Ho ltac:(lia)) as [_ Hle].
  eexists _, _. split; [exact E|]. split.
  - apply elements_of_slot; [exact Hs|]. exists 1. split; [lia | reflexivity].
  - intros x Hx. apply elements_of_slot in Hx as (k & Hk & <-); [|exact Hs].
    apply Hle. exact Hk.
Qed.

Lemma delete_min_returns_least_witness :
  shape (mkHeap [0; 1; 3; 2]%Z 3) /\ heap_order (mkHeap [0; 1; 3; 2]%Z 3) /\ 2 <= 3
  /\ exists m s', delete_min (mkHeap [0; 1; 3; 2]%Z 3) = (inr m, s')
                  /\ m ∈ [1; 3; 2]%Z
                  /\ forall x, x ∈ [1; 3; 2]%Z -> (m <= x)%Z.
Proof.
  assert (heap_order (mkHeap [0; 1; 3; 2]%Z 3)) as Ho.
  { apply (insert_all_facts [3; 1; 2]%Z). vm_compute. reflexivity. }
  split; [reflexivity|]. split; [exact Ho|]. split; [lia|].
  apply (delete_min_returns_least (mkHeap [0; 1; 3; 2]%Z 3)); [reflexivity | exact Ho | cbn; lia].
Defined.

(** X8. In a run of calls on a new heap in which no call raises, the
    heap stays well-shaped and [size] is the number of [insert] calls
    minus the number of [delete_min] calls. *)
Theorem quiet_run_size (cs : list call) (rs : list (exn + option Z)) (s : MinMaxHeap) :
  run cs init = (rs, s) ->
  forallb returned rs = true ->
  shape s
  /\ size s + count_calls is_delete_min cs = count_calls is_insert cs.
Proof.
  intros E Hr. destruct (quiet_run cs init rs s init_shape E Hr) as [Hs N].
  split; [exact Hs|]. cbn in N. exact N.
Qed.

Lemma quiet_run_size_witness :
  run [Insert 1; Insert 2; Insert 3; DeleteMin; GetMax] init
  = ([inr None; inr None; inr None; inr (Some 1%Z); inr (Some 2%Z)],
     mkHeap [0; 3; 2]%Z 2)
  /\ shape (mkHeap [0; 3; 2]%Z 2)
  /\ size (mkHeap [0; 3; 2]%Z 2)
     + count_calls is_delete_min [Insert 1; Insert 2; Insert 3; DeleteMin; GetMax]
     = count_calls is_insert [Insert 1; Insert 2; Insert 3; DeleteMin; GetMax].
Proof.
  split; [vm_compute; reflexivity|].
  apply (quiet_run_size [Insert 1; Insert 2; Insert 3; DeleteMin; GetMax]
           [inr None; inr None; inr None; inr (Some 1%Z); inr (Some 2%Z)]
           (mkHeap [0; 3; 2]%Z 2)); [vm_compute; reflexivity | reflexivity].
Defined.

(** X9. On a well-shaped heap [get_min] and [get_max] raise exactly when
    the heap is empty, both with [IndexError("Heap is empty.")]; on a
    non-empty one both return a value. *)
Theorem observers_raise_iff_empty (s : MinMaxHeap) :
  shape s ->
  (size s = 0
   /\ fst (get_min s) = inl (IndexError "Heap is empty.")
   /\ fst (get_max s) = inl (IndexError "Heap is empty."))
  \/ (1 <= size s
      /\ (exists v, fst (get_min s) = inr v)
      /\ (exists v, fst (get_max s) = inr v)).
Proof.
  intros Hs. destruct (le_lt_dec 1 (size s)) as [Hn|Hn].
  - right. split; [exact Hn|]. split.
    + rewrite (get_min_nonempty s Hs Hn). eauto.
    + rewrite (get_max_nonempty s Hs Hn). eauto.
  - left. destruct s as [h n]. cbn [size] in *. assert (n = 0) as -> by lia.
    rewrite get_min_empty, get_max_empty. auto.
Qed.

Lemma observers_raise_iff_empty_witness :
  shape init
  /\ ((size init = 0
       /\ fst (get_min init) = inl (IndexError "Heap is empty.")
       /\ fst (get_max init) = inl (IndexError "Heap is empty."))
      \/ (1 <= size init
          /\ (exists v, fst (get_min init) = inr v)
          /\ (exists v, fst (get_max init) = inr v))).
Proof.
  split; [reflexivity|]. apply (observers_raise_iff_empty init). reflexivity.
Defined.

(** X10. For every index [i] with [1 <= i < 2^46], the range in which
    the floating point logarithm of the source is the exact one for [i]
    and for both its children, [_parent] undoes [_left_child] and
    [_right_child], and both children lie on the level kind opposite to
    their parent's: min-levels and max-levels alternate. *)
Theorem children_alternate_levels (i : nat) :
  1 <= i -> (Z.of_nat i < 2 ^ 46)%Z ->
  _parent (_left_child i) = i
  /\ _parent (_right_child i) = i
  /\ _is_min_level (_left_child i) = negb (_is_min_level i)
  /\ _is_min_level (_right_child i) = negb (_is_min_level i).
Proof.
  intros Hi _.
  pose proof (parent_left_child i) as El. pose proof (parent_right_child i) as Er.
  split; [exact El|]. split; [exact Er|].
  assert (2 <= _left_child i) as Hl by (unfold _left_child; lia).
  assert (2 <= _right_child i) as Hr by (unfold _right_child; lia).
  pose proof (is_min_level_parent _ Hl) as Ll. rewrite El in Ll.
  pose proof (is_min_level_parent _ Hr) as Lr. rewrite Er in Lr.
  split.
  - rewrite Ll. symmetry. apply negb_involutive.
  - rewrite Lr. symmetry. apply negb_involutive.
Qed.

Lemma children_alternate_levels_witness :
  1 <= 3 /\ (Z.of_nat 3 < 2 ^ 46)%Z
  /\ _parent (_left_child 3) = 3
  /\ _parent (_right_child 3) = 3
  /\ _is_min_level (_left_child 3) = negb (_is_min_level 3)
  /\ _is_min_level (_right_child 3) = negb (_is_min_level 3).
Proof.
  split; [lia|]. split; [reflexivity|].
  apply (children_alternate_levels 3); [lia | reflexivity].
Defined.

(** X11. On a non-empty well-shaped heap in min-max order, inserting an
    item that is at most every stored element and then calling
    [delete_min] gives that item back and leaves the shape, the size and
    the stored elements as they were before the two calls. *)
Theorem insert_then_delete_min (item : Z) (s : MinMaxHeap) :
  shape s -> heap_order s -> 1 <= size s ->
  (forall x, x ∈ elements_of s -> (item <= x)%Z) ->
  exists s1 s2, insert item s = (inr tt, s1)
                /\ delete_min s1 = (inr item, s2)
                /\ shape s2 /\ size s2 = size s
                /\ elements_of s2 ≡ₚ elements_of s.
Proof.
  intros Hs Ho Hn Hlow.
  destruct (insert_spec item s Hs Ho) as (s1 & E1 & Hs1 & N1 & Ho1).
  destruct (insert_elements item s s1 Hs E1) as (_ & _ & P1 & _).
  assert (2 <= size s1) as Hn1 by lia.
  pose proof (delete_min_many s1 Hs1 Hn1) as E2.
  pose proof (delete_min_contents s1 Hs1 Hn1) as [P2 _].
  destruct (get_min_least s1 Hs1 Ho1 ltac:(lia)) as [_ Hle].
  set (m := heap s1 !!! 1) in *.
  assert (m = item) as Em.
  { assert (m <= item)%Z as Hmi.
    { assert (item ∈ elements_of s1) as Hi by (rewrite P1; apply elem_of_cons; auto).
      apply elements_of_slot in Hi as (k & Hk & <-); [|exact Hs1]. apply Hle. exact Hk. }
    assert (m ∈ elements_of s1) as Hm.
    { apply elements_of_slot; [exact Hs1|]. exists 1. split; [lia | reflexivity]. }
    rewrite P1 in Hm. apply elem_of_cons in Hm as [Hm|Hm]; [exact Hm|].
    pose proof (Hlow m Hm). lia. }
  rewrite E2 in P2. cbn [snd] in P2. rewrite Em in E2, P2.
  eexists _, _. split; [exact E1|]. split; [exact E2|]. split.
  - unfold shape in *. cbn [heap size]. rewrite length_insert, length_take. lia.
  - split; [cbn [size]; lia|].
    rewrite P1 in P2. symmetry. exact (Permutation.Permutation_cons_inv P2).
Qed.

Lemma insert_then_delete_min_witness :
  shape (mkHeap [0; 1; 3; 2]%Z 3) /\ heap_order (mkHeap [0; 1; 3; 2]%Z 3) /\ 1 <= 3
  /\ (forall x, x ∈ [1; 3; 2]%Z -> (0 <= x)%Z)
  /\ exists s1 s2, insert 0 (mkHeap [0; 1; 3; 2]%Z 3) = (inr tt, s1)
                   /\ delete_min s1 = (inr 0%Z, s2)
                   /\ shape s2 /\ size s2 = 3
                   /\ elements_of s2 ≡ₚ [1; 3; 2]%Z.
Proof.
  assert (heap_order (mkHeap [0; 1; 3; 2]%Z 3)) as Ho.
  { apply (insert_all_facts [3; 1; 2]%Z). vm_compute. reflexivity. }
  assert (forall x, x ∈ [1; 3; 2]%Z -> (0 <= x)%Z) as Hlow.
  { intros x Hx. repeat (apply elem_of_cons in Hx as [->|Hx]; [lia|]).
    apply elem_of_nil in Hx. destruct Hx. }
  split; [reflexivity|]. split; [exact Ho|]. split; [lia|]. split; [exact Hlow|].
  apply (insert_then_delete_min 0 (mkHeap [0; 1; 3; 2]%Z 3));
    [reflexivity | exact Ho | cbn; lia | exact Hlow].
Defined.

(** X12. A heap built from one element returns it as both minimum and
    maximum; a heap built from two elements returns the smaller as
    minimum and the larger as maximum, whichever was inserted first. *)
Theorem one_and_two_elements (a b : Z) :
  (exists s, insert_all [a] init = (inr tt, s)
             /\ fst (get_min s) = inr a /\ fst (get_max s) = inr a)
  /\ (exists s, insert_all [a; b] init = (inr tt, s)
                /\ fst (get_min s) = inr (Z.min a b)
                /\ fst (get_max s) = inr (Z.max a b)).
Proof.
  split.
  - exists (mkHeap [0%Z; a] 1). split; [reflexivity|]. split; reflexivity.
  - assert (insert_all [a] init = (inr tt, mkHeap [0%Z; a] 1)) as E1 by reflexivity.
    cbn [insert_all] in *. unfold bind at 1. unfold bind at 1 in E1.
    destruct (insert a init) as [[e|u] s1]; [discriminate|].
    unfold ret in E1. injection E1 as ->.
    unfold bind at 1. unfold insert, bind, append, get_size, set_size, _bubble_up.
    cbn -[_bubble_up_min _bubble_up_max Z.ltb Z.min Z.max].
    destruct (Z.ltb_spec b a) as [Hlt|Hge].
    + rewrite _bubble_up_min_eq. cbn.
      exists (mkHeap [0%Z; b; a] 2). split; [reflexivity|]. cbn.
      split; f_equal; lia.
    + rewrite _bubble_up_max_eq. cbn.
      exists (mkHeap [0%Z; a; b] 2). split; [reflexivity|]. cbn.
      split; f_equal; lia.
Qed.
